(** * libu ring buffer (srcs/toolbox/rb.c)

    A shallow embedding of the ring buffer of libu and the properties of
    its offset arithmetic and of the doubled mapping.

    - [size_t] values are integers of [Z] in [0, 2^64), every arithmetic
      operation of the source is followed by its wrap-around ([wrap]);
    - [ssize_t] results are obtained by the conversion [to_ssize];
    - a pointer that may be NULL is an [option];
    - the macros of libu's headers are read as they are used:
      [dbg_return_if (c, r)] returns [r] when [c] holds, [dbg_err_sif (c)]
      jumps to [err] when [c] holds, [nop_goto_if (c, l)] jumps to [l];
    - the two halves of the region mapped at [base] alias one file of [sz]
      bytes; an access outside the mapped range, or past the end of the
      caller's block, is undefined behaviour ([Fault]). *)

From Stdlib Require Import ZArith Lia.
From Stdlib.Strings Require Import Byte.
From stdpp Require Import base list.

Local Open Scope Z_scope.

(** ** Machine integers *)

Definition SIZE_MOD : Z := 2 ^ 64.
Definition SSIZE_MAX : Z := 2 ^ 63 - 1.

(** Arithmetic on [size_t] is modulo [2^64]. *)
Definition wrap (x : Z) : Z := x mod SIZE_MOD.

(** Conversion of a [size_t] to the [ssize_t] that is returned. *)
Definition to_ssize (x : Z) : Z := if x <=? SSIZE_MAX then x else x - SIZE_MOD.

(** A value of type [size_t]. *)
Definition is_size (x : Z) : Prop := 0 <= x < SIZE_MOD.

(** Modelled from the spec: the U_MIN macro of the missing toolbox header;
    the spec computes [k = min(Avail(rb), n)] and [k = min(Ready(rb), n)]. *)
Definition U_MIN (a b : Z) : Z := if a <? b then a else b.

(** ** Results *)

(** [Fault] is undefined behaviour of the C program: a memory access outside
    the mapped region or outside the caller's block. *)
Inductive result (A : Type) : Type :=
| Fault : result A
| Ok : A -> result A.
Arguments Fault {A}.
Arguments Ok {A} _.

(** ** The ring buffer object *)

(** [struct u_rb_s], together with the file that both halves of the region
    at [base] map ([MAP_SHARED]): byte [i] of [file] is seen at the addresses
    [base + i] and [base + sz + i]. *)
Record u_rb_t : Type := mk_rb {
  base : Z;            (* base address of the mmap'd region *)
  sz : Z;              (* ring buffer size *)
  wr_off : Z;          (* write offset *)
  rd_off : Z;          (* read offset *)
  file : list byte     (* the storage behind the two mappings *)
}.

Definition set_wr_off (rb : u_rb_t) (v : Z) : u_rb_t :=
  mk_rb (base rb) (sz rb) v (rd_off rb) (file rb).
Definition set_rd_off (rb : u_rb_t) (v : Z) : u_rb_t :=
  mk_rb (base rb) (sz rb) (wr_off rb) v (file rb).
Definition set_file (rb : u_rb_t) (f : list byte) : u_rb_t :=
  mk_rb (base rb) (sz rb) (wr_off rb) (rd_off rb) f.

(** ** Memory accesses through the doubled mapping *)

(** The byte of [file] an address refers to, if it is mapped at all: the
    first half [base, base + sz) and the second half [base + sz, base + 2 sz)
    both map the file from its offset 0. *)
Definition phys (rb : u_rb_t) (addr : Z) : option nat :=
  let off := addr - base rb in
  if (0 <=? off) && (off <? sz rb) then Some (Z.to_nat off)
  else if (sz rb <=? off) && (off <? 2 * sz rb) then Some (Z.to_nat (off - sz rb))
  else None.

Definition load (rb : u_rb_t) (addr : Z) : option byte :=
  match phys rb addr with
  | Some i => file rb !! i
  | None => None
  end.

Definition store (rb : u_rb_t) (addr : Z) (v : byte) : option u_rb_t :=
  match phys rb addr with
  | Some i =>
      if (i <? length (file rb))%nat then Some (set_file rb (<[i := v]> (file rb)))
      else None
  | None => None
  end.

(** Bytes stored one after the other from [dst] upwards. *)
Fixpoint store_bytes (rb : u_rb_t) (dst : Z) (l : list byte) : option u_rb_t :=
  match l with
  | [] => Some rb
  | x :: l' =>
      match store rb dst x with
      | Some rb' => store_bytes rb' (dst + 1) l'
      | None => None
      end
  end.

(** [n] bytes loaded one after the other from [src] upwards. *)
Fixpoint load_bytes (rb : u_rb_t) (src : Z) (n : nat) : option (list byte) :=
  match n with
  | O => Some []
  | S n' =>
      match load rb src with
      | Some x =>
          match load_bytes rb (src + 1) n' with
          | Some l => Some (x :: l)
          | None => None
          end
      | None => None
      end
  end.

(** [memcpy(dst, b, n)] with [dst] inside the region and [b] the caller's
    block: the first [n] bytes of [b] are stored at [dst]. *)
Definition memcpy_in (rb : u_rb_t) (dst : Z) (b : list byte) (n : Z) : option u_rb_t :=
  if n <=? Z.of_nat (length b) then store_bytes rb dst (take (Z.to_nat n) b)
  else None.

(** [memcpy(b, src, n)] with [src] inside the region and [b] the caller's
    block: the first [n] bytes of [b] are replaced. *)
Definition memcpy_out (rb : u_rb_t) (b : list byte) (src : Z) (n : Z) : option (list byte) :=
  if n <=? Z.of_nat (length b) then
    match load_bytes rb src (Z.to_nat n) with
    | Some l => Some (l ++ drop (Z.to_nat n) b)
    | None => None
    end
  else None.

(** ** Static helpers of rb.c *)

(* round requested size to a multiple of PAGESIZE *)
Definition round_sz (pg_sz : Z) (sz : Z) : Z :=
  if sz =? 0 then pg_sz
  else wrap ((wrap (wrap (sz - 1) / pg_sz + 1)) * pg_sz).

(* address for write op *)
Definition write_addr (rb : u_rb_t) : Z := base rb + wr_off rb.

(* shift the write pointer *)
Definition write_incr (rb : u_rb_t) (cnt : Z) : u_rb_t :=
  set_wr_off rb (wrap (wr_off rb + cnt)).

(* address for next read op *)
Definition read_addr (rb : u_rb_t) : Z := base rb + rd_off rb.

(* shift the read pointer of 'cnt' positions *)
Definition read_incr (rb : u_rb_t) (cnt : Z) : u_rb_t :=
  let rb1 := set_rd_off rb (wrap (rd_off rb + cnt)) in
  if sz rb1 <=? rd_off rb1 then
    let rb2 := set_rd_off rb1 (wrap (rd_off rb1 - sz rb1)) in
    set_wr_off rb2 (wrap (wr_off rb2 - sz rb2))
  else rb1.

(** ** The interface *)

Definition u_rb_size (rb : u_rb_t) : Z := sz rb.

Definition u_rb_ready (rb : u_rb_t) : Z := wrap (wr_off rb - rd_off rb).

Definition u_rb_avail (rb : u_rb_t) : Z := wrap (sz rb - u_rb_ready rb).

(** The platform services [u_rb_create] consumes: the page size that
    [sysconf(_SC_PAGE_SIZE)] reports, whether the requests for memory, for the
    temporary file and for the mappings are granted, and the address at which
    the kernel places the reserved range. *)
Record os_t : Type := mk_os {
  sc_page_size : Z;
  os_grants : bool;
  os_addr : Z
}.

(** [ftruncate(fd, len)]: the length is an [off_t], a negative one is
    refused (EINVAL). *)
Definition ftruncate_ok (os : os_t) (len : Z) : bool :=
  os_grants os && (0 <=? to_ssize len).

(** [mmap(..., len, ...)]: a length of zero is refused (EINVAL). *)
Definition mmap_ok (os : os_t) (len : Z) : bool :=
  os_grants os && negb (len =? 0).

(** [u_rb_create]: [None] is the return value -1, [Some rb] is the return
    value 0 with [rb] stored at [*prb].  The file is created empty and grown
    by [ftruncate], so it reads as zeroes. *)
Definition u_rb_create (os : os_t) (hint_sz : Z) : option u_rb_t :=
  let sz := round_sz (sc_page_size os) hint_sz in
  if negb (os_grants os) then None                         (* u_zalloc, mkstemp, u_remove *)
  else if negb (ftruncate_ok os sz) then None
  else if negb (mmap_ok os (wrap (Z.shiftl sz 1))) then None   (* PROT_NONE reservation *)
  else if negb (mmap_ok os sz) then None                   (* first half *)
  else if negb (mmap_ok os sz) then None                   (* second half *)
  else Some (mk_rb (os_addr os) sz 0 0 (replicate (Z.to_nat sz) x00)).

Definition u_rb_write (rb : option u_rb_t) (b : option (list byte)) (b_sz : Z)
  : result (Z * option u_rb_t) :=
  match rb with
  | None => Ok (-1, rb)
  | Some r =>
      match b with
      | None => Ok (-1, rb)
      | Some src =>
          if u_rb_size r <? b_sz then Ok (-1, rb)
          else
            let to_be_written := U_MIN (u_rb_avail r) b_sz in
            if to_be_written =? 0 then Ok (to_ssize to_be_written, rb)
            else
              match memcpy_in r (write_addr r) src to_be_written with
              | Some r1 => Ok (to_ssize to_be_written, Some (write_incr r1 to_be_written))
              | None => Fault
              end
      end
  end.

Definition u_rb_read (rb : option u_rb_t) (b : option (list byte)) (b_sz : Z)
  : result (Z * option u_rb_t * option (list byte)) :=
  match b with
  | None => Ok (-1, rb, b)
  | Some dst =>
      match rb with
      | None => Ok (-1, rb, b)
      | Some r =>
          if u_rb_size r <? b_sz then Ok (-1, rb, b)
          else
            let to_be_read := U_MIN (u_rb_ready r) b_sz in
            (* if there is nothing ready to be read go out immediately *)
            if to_be_read =? 0 then Ok (to_ssize to_be_read, rb, b)
            else
              match memcpy_out r dst (read_addr r) to_be_read with
              | Some dst' => Ok (to_ssize to_be_read, Some (read_incr r to_be_read), Some dst')
              | None => Fault
              end
      end
  end.

Definition u_rb_clear (rb : option u_rb_t) : Z * option u_rb_t :=
  match rb with
  | None => (-1, rb)
  | Some r => (0, Some (set_rd_off (set_wr_off r 0) 0))
  end.

(** ** Runs of the interface *)

(** One call on a live buffer. *)
Inductive op : Type :=
| OpWrite (b : option (list byte)) (b_sz : Z)
| OpRead (b : option (list byte)) (b_sz : Z)
| OpClear.

(** The arguments of a call have the types the C prototypes give them. *)
Definition op_typed (o : op) : Prop :=
  match o with
  | OpWrite _ n => is_size n
  | OpRead _ n => is_size n
  | OpClear => True
  end.

(** The value a call returns and the buffer it leaves. *)
Definition call (rb : u_rb_t) (o : op) : result (Z * option u_rb_t) :=
  match o with
  | OpWrite b n => u_rb_write (Some rb) b n
  | OpRead b n =>
      match u_rb_read (Some rb) b n with
      | Ok (r, rb', _) => Ok (r, rb')
      | Fault => Fault
      end
  | OpClear => Ok (u_rb_clear (Some rb))
  end.

(** The buffers a program can hold: the ones [u_rb_create] returns and the
    ones the calls leave. *)
Inductive reachable : u_rb_t -> Prop :=
| reach_create os hint_sz rb :
    is_size (sc_page_size os) -> is_size hint_sz ->
    u_rb_create os hint_sz = Some rb -> reachable rb
| reach_call rb o r rb' :
    reachable rb -> op_typed o -> call rb o = Ok (r, Some rb') -> reachable rb'.

(** Bytes moved by a run of [u_rb_write] and [u_rb_read] calls none of which reports an
    error: the buffer at the end, the sum of the values the writes returned
    and the sum of the values the reads returned. *)
Fixpoint run (rb : u_rb_t) (ops : list op) : option (u_rb_t * Z * Z) :=
  match ops with
  | [] => Some (rb, 0, 0)
  | OpClear :: _ => None
  | o :: ops' =>
      match call rb o with
      | Ok (r, Some rb') =>
          if r <? 0 then None
          else
            match run rb' ops' with
            | Some (rb'', w, d) =>
                match o with
                | OpWrite _ _ => Some (rb'', r + w, d)
                | _ => Some (rb'', w, r + d)
                end
            | None => None
            end
      | _ => None
      end
  end.

(** The bytes that are buffered, oldest first. *)
Definition contents (rb : u_rb_t) : option (list byte) :=
  load_bytes rb (read_addr rb) (Z.to_nat (u_rb_ready rb)).

(** The bytes a run of [u_rb_write] and [u_rb_read] calls moves, none of the
    calls reporting an error: the buffer at the end, the bytes the writes
    accepted (for a write that returns [r], the first [r] bytes of its
    block) and the bytes the reads delivered (for a read that returns [r],
    the first [r] bytes of its block after the call), both in call order. *)
Fixpoint stream (rb : u_rb_t) (ops : list op) : option (u_rb_t * list byte * list byte) :=
  match ops with
  | [] => Some (rb, [], [])
  | OpWrite b n :: ops' =>
      match u_rb_write (Some rb) b n, b with
      | Ok (r, Some rb'), Some src =>
          if r <? 0 then None
          else
            match stream rb' ops' with
            | Some (rb'', i, o) => Some (rb'', take (Z.to_nat r) src ++ i, o)
            | None => None
            end
      | _, _ => None
      end
  | OpRead b n :: ops' =>
      match u_rb_read (Some rb) b n with
      | Ok (r, Some rb', Some dst') =>
          if r <? 0 then None
          else
            match stream rb' ops' with
            | Some (rb'', i, o) => Some (rb'', i, take (Z.to_nat r) dst' ++ o)
            | None => None
            end
      | _ => None
      end
  | OpClear :: _ => None
  end.

(** ** Disposal *)

(** The calls [u_rb_free] makes to the platform. *)
Inductive event : Type :=
| EvMunmap (addr len : Z)     (* munmap(addr, len) *)
| EvFree.                     (* u_free(rb) *)

(** [u_rb_free]: nothing is done for NULL; the region is unmapped when
    [base] is not NULL, and when that fails the function returns at once;
    otherwise the object is freed.  [munmap_fails] is the outcome of
    [munmap], the result is the sequence of calls made. *)
Definition u_rb_free (munmap_fails : bool) (rb : option u_rb_t) : list event :=
  match rb with
  | None => []
  | Some r =>
      if negb (base r =? 0)
      then
        if munmap_fails
        then [EvMunmap (base r) (wrap (Z.shiftl (sz r) 1))]
        else [EvMunmap (base r) (wrap (Z.shiftl (sz r) 1)); EvFree]
      else [EvFree]
  end.

(** ** Predicates of the specification *)

(** The invariant of a live buffer.  It is stronger than the bounds the
    specification states: the read offset stays in the first half, which is
    what makes the bounds inductive and keeps every access in the mapping. *)
Record inv (rb : u_rb_t) : Prop := mk_inv {
  inv_sz : 0 < sz rb <= SSIZE_MAX;
  inv_file : Z.of_nat (length (file rb)) = sz rb;
  inv_rd : 0 <= rd_off rb < sz rb;
  inv_wr : rd_off rb <= wr_off rb;
  inv_ready : wr_off rb - rd_off rb <= sz rb
}.

(** The bounds the specification gives for the two offsets. *)
Definition offsets_bounded (rb : u_rb_t) : Prop :=
  0 <= rd_off rb <= wr_off rb
  /\ wr_off rb - rd_off rb <= sz rb
  /\ wr_off rb < 2 * sz rb.

(** The buffer a read of [k] bytes leaves, in unbounded arithmetic. *)
Definition advance_read (rb : u_rb_t) (k : Z) : u_rb_t :=
  if sz rb <=? rd_off rb + k
  then mk_rb (base rb) (sz rb) (wr_off rb - sz rb) (rd_off rb + k - sz rb) (file rb)
  else mk_rb (base rb) (sz rb) (wr_off rb) (rd_off rb + k) (file rb).

(** A reference to a buffer is either NULL or a live buffer. *)
Definition valid_ref (orb : option u_rb_t) : Prop :=
  match orb with
  | Some rb => reachable rb
  | None => True
  end.

(** The arguments [u_rb_write] and [u_rb_read] refuse: a missing buffer, a
    missing block, or a size that exceeds the size of the buffer. *)
Definition invalid_argument (orb : option u_rb_t) (b : option (list byte)) (n : Z) : Prop :=
  orb = None \/ b = None \/ exists rb, orb = Some rb /\ u_rb_size rb < n.

(** The caller's block holds the [n] bytes the call may move. *)
Definition block_holds (b : option (list byte)) (n : Z) : Prop :=
  forall blk, b = Some blk -> n <= Z.of_nat (length blk).

(** A buffer as [u_rb_create] returns it or as [u_rb_clear] leaves it. *)
Inductive fresh_or_cleared : u_rb_t -> Prop :=
| is_fresh os hint_sz rb :
    u_rb_create os hint_sz = Some rb -> fresh_or_cleared rb
| is_cleared rb0 rb :
    u_rb_clear (Some rb0) = (0, Some rb) -> fresh_or_cleared rb.

(** ** Concrete platforms and buffers *)

(** A platform with pages of 4096 bytes and, to keep small instances
    readable, one with pages of 8 bytes; both grant every request. *)
Definition os4k : os_t := mk_os 4096 true 1048576.
Definition os8 : os_t := mk_os 8 true 4096.

(** The buffer of 8 bytes [u_rb_create] returns on [os8]. *)
Definition rb8 : u_rb_t := mk_rb 4096 8 0 0 (replicate 8 x00).

(** Six bytes in, six bytes out, then six more that straddle the end of the
    file: they land in the bytes 6, 7, 0, 1, 2, 3. *)
Definition abcdef : list byte := [x61; x62; x63; x64; x65; x66].
Definition rb8_6 : u_rb_t := mk_rb 4096 8 6 6 (abcdef ++ [x00; x00]).
Definition rb8_12 : u_rb_t :=
  mk_rb 4096 8 12 6 [x63; x64; x65; x66; x65; x66; x61; x62].

(** A buffer of one page of 4096 bytes that holds the byte [a]: it is
    created with a hint of 0 and written once. *)
Definition rb4k : u_rb_t := mk_rb 1048576 4096 0 0 (replicate 4096 x00).
Definition rb4k_a : u_rb_t := mk_rb 1048576 4096 1 0 (x61 :: replicate 4095 x00).
Definition rb4k_ab : u_rb_t := mk_rb 1048576 4096 2 0 (x61 :: x62 :: replicate 4094 x00).
Definition rb4k_b : u_rb_t := mk_rb 1048576 4096 2 1 (x61 :: x62 :: replicate 4094 x00).

(** The same page filled up. *)
Definition rb4k_full : u_rb_t := mk_rb 1048576 4096 4096 0 (replicate 4096 x61).

(** The full page after [u_rb_clear]: the bytes are still there. *)
Definition rb4k_cleared : u_rb_t := mk_rb 1048576 4096 0 0 (replicate 4096 x61).

(** * Properties *)

(** ** Machine arithmetic *)

Lemma SIZE_MOD_eq : SIZE_MOD = 18446744073709551616.
Proof. reflexivity. Qed.

Lemma SSIZE_MAX_eq : SSIZE_MAX = 9223372036854775807.
Proof. reflexivity. Qed.

Lemma wrap_id x : 0 <= x < SIZE_MOD -> wrap x = x.
Proof. intros H. unfold wrap. apply Z.mod_small. exact H. Qed.

Lemma wrap_range x : is_size (wrap x).
Proof. unfold is_size, wrap. apply Z.mod_pos_bound. rewrite SIZE_MOD_eq. lia. Qed.

Lemma to_ssize_id x : 0 <= x <= SSIZE_MAX -> to_ssize x = x.
Proof.
  intros H. unfold to_ssize.
  destruct (Z.leb_spec x SSIZE_MAX); [reflexivity | lia].
Qed.

Lemma U_MIN_min a b : U_MIN a b = Z.min a b.
Proof. unfold U_MIN. destruct (Z.ltb_spec a b); lia. Qed.

(** Goals that say that a literal or a bounded term is a [size_t]. *)
Ltac size_tac :=
  unfold op_typed, is_size in *; rewrite ?SIZE_MOD_eq, ?SSIZE_MAX_eq in *; lia.

(** A [wrap] around a term that is in range disappears. *)
Ltac unwrap := rewrite !wrap_id by size_tac.

(** ** Concrete runs *)

Example create_os8 : u_rb_create os8 5 = Some rb8.
Proof. reflexivity. Qed.

Example create_os4k_size :
  option_map u_rb_size (u_rb_create os4k 4000) = Some 4096.
Proof. vm_compute. reflexivity. Qed.

Example fill_drain :
  run rb8 [OpWrite (Some abcdef) 6; OpRead (Some (replicate 6 x00)) 6] = Some (rb8_6, 6, 6).
Proof. vm_compute. reflexivity. Qed.

Example straddle_write : u_rb_write (Some rb8_6) (Some abcdef) 6 = Ok (6, Some rb8_12).
Proof. vm_compute. reflexivity. Qed.

Example straddle_read :
  u_rb_read (Some rb8_12) (Some (replicate 6 x00)) 6
  = Ok (6, Some (mk_rb 4096 8 4 4 (file rb8_12)), Some abcdef).
Proof. vm_compute. reflexivity. Qed.

Example round_sz_wraps : round_sz 4096 (2 ^ 64 - 1) = 0.
Proof. vm_compute. reflexivity. Qed.

(** The scenario of the specification: 4000 bytes are accepted, then 96 of
    200, the 4096 bytes are read back, and 4096 bytes are accepted again. *)
Example scenario_4096 :
  run rb4k [OpWrite (Some (replicate 4000 x61)) 4000;
            OpWrite (Some (replicate 200 x62)) 200;
            OpRead (Some (replicate 4096 x00)) 4096;
            OpWrite (Some (replicate 4096 x63)) 4096]
  = Some (mk_rb 1048576 4096 4096 0 (replicate 4096 x63), 4000 + (96 + (4096 + 0)), 4096 + 0).
Proof. vm_compute. reflexivity. Qed.

Example scenario_4096_short_write :
  u_rb_write (Some (mk_rb 1048576 4096 4000 0 (replicate 4000 x61 ++ replicate 96 x00)))
    (Some (replicate 200 x62)) 200
  = Ok (96, Some (mk_rb 1048576 4096 4096 0 (replicate 4000 x61 ++ replicate 96 x62))).
Proof. vm_compute. reflexivity. Qed.

(** ** The invariant of a live buffer *)

Lemma ready_eq rb : inv rb -> u_rb_ready rb = wr_off rb - rd_off rb.
Proof.
  intros [? ? ? ? ?]. unfold u_rb_ready. apply wrap_id.
  rewrite SIZE_MOD_eq. rewrite SSIZE_MAX_eq in *. lia.
Qed.

Lemma avail_eq rb : inv rb -> u_rb_avail rb = sz rb - (wr_off rb - rd_off rb).
Proof.
  intros H. unfold u_rb_avail. rewrite (ready_eq rb H). destruct H.
  apply wrap_id. rewrite SIZE_MOD_eq. rewrite SSIZE_MAX_eq in *. lia.
Qed.

(** What [u_rb_create] returns when it succeeds. *)
Lemma create_Some os h rb :
  u_rb_create os h = Some rb ->
  rb = mk_rb (os_addr os) (round_sz (sc_page_size os) h) 0 0
         (replicate (Z.to_nat (round_sz (sc_page_size os) h)) x00)
  /\ 0 <= to_ssize (round_sz (sc_page_size os) h)
  /\ wrap (Z.shiftl (round_sz (sc_page_size os) h) 1) <> 0.
Proof.
  unfold u_rb_create, ftruncate_ok, mmap_ok.
  generalize (round_sz (sc_page_size os) h). intros s H.
  destruct (os_grants os); simpl in H; [| discriminate].
  destruct (Z.leb_spec 0 (to_ssize s)); simpl in H; [| discriminate].
  destruct (Z.eqb_spec (wrap (Z.shiftl s 1)) 0); simpl in H; [discriminate |].
  destruct (Z.eqb_spec s 0); simpl in H; [discriminate |].
  injection H as <-. auto.
Qed.

Lemma round_sz_size pg h : is_size pg -> is_size (round_sz pg h).
Proof.
  intros Hpg. unfold round_sz. destruct (h =? 0); [exact Hpg | apply wrap_range].
Qed.

Lemma inv_create os h rb :
  is_size (sc_page_size os) -> u_rb_create os h = Some rb ->
  inv rb /\ wr_off rb = 0 /\ rd_off rb = 0 /\ base rb = os_addr os
  /\ sz rb = round_sz (sc_page_size os) h.
Proof.
  intros Hpg H. apply create_Some in H. destruct H as (-> & Hs & Hz).
  pose proof (round_sz_size _ h Hpg) as Hr.
  set (s := round_sz (sc_page_size os) h) in *.
  assert (s <> 0) by (intros E; apply Hz; rewrite E; reflexivity).
  assert (s <= SSIZE_MAX).
  { unfold to_ssize in Hs. destruct (Z.leb_spec s SSIZE_MAX); [assumption |].
    unfold is_size in Hr. lia. }
  unfold is_size in Hr.
  repeat split; simpl; try lia.
  rewrite length_replicate. lia.
Qed.

(** ** The doubled mapping *)

Lemma phys_spec rb a i :
  phys rb a = Some i <->
  (0 <= a - base rb < sz rb /\ i = Z.to_nat (a - base rb))
  \/ (sz rb <= a - base rb < 2 * sz rb /\ i = Z.to_nat (a - base rb - sz rb)).
Proof.
  unfold phys.
  destruct (Z.leb_spec 0 (a - base rb)) as [L1 | L1],
    (Z.ltb_spec (a - base rb) (sz rb)) as [L2 | L2],
    (Z.leb_spec (sz rb) (a - base rb)) as [L3 | L3],
    (Z.ltb_spec (a - base rb) (2 * sz rb)) as [L4 | L4];
    simpl; split; intros H; try discriminate; try lia;
    try (injection H as <-; lia);
    try (destruct H as [[? ->] | [? ->]]; (reflexivity || lia)).
Qed.

Lemma phys_mapped rb off :
  0 <= off < 2 * sz rb -> exists i, phys rb (base rb + off) = Some i /\ Z.of_nat i < sz rb.
Proof.
  intros H. destruct (Z.lt_ge_cases off (sz rb)).
  - exists (Z.to_nat off). split; [| lia].
    apply phys_spec. left. split; [lia | f_equal; lia].
  - exists (Z.to_nat (off - sz rb)). split; [| lia].
    apply phys_spec. right. split; [lia | f_equal; lia].
Qed.

(** The defining property of the structure: an address of the first half
    and the one [sz] bytes further refer to the same byte. *)
Lemma phys_alias rb off :
  0 <= off < sz rb -> phys rb (base rb + off + sz rb) = phys rb (base rb + off).
Proof.
  intros H.
  assert (phys rb (base rb + off) = Some (Z.to_nat off)) as ->
    by (apply phys_spec; left; split; [lia | f_equal; lia]).
  apply phys_spec. right. split; [lia | f_equal; lia].
Qed.

(** Two addresses of the region less than [sz] apart are different bytes. *)
Lemma phys_apart rb o1 o2 :
  0 <= o1 -> o1 < o2 -> o2 < 2 * sz rb -> o2 - o1 < sz rb ->
  phys rb (base rb + o1) <> phys rb (base rb + o2).
Proof.
  intros H0 H1 H2 H3 E.
  destruct (phys_mapped rb o2) as (i & Hi & _); [lia |].
  rewrite Hi in E. apply phys_spec in E, Hi.
  destruct E as [[? ->] | [? ->]], Hi as [[? Hi] | [? Hi]]; lia.
Qed.

Lemma phys_geom rb rb' a :
  base rb' = base rb -> sz rb' = sz rb -> phys rb' a = phys rb a.
Proof. unfold phys. intros -> ->. reflexivity. Qed.

Lemma load_alias rb off :
  0 <= off < sz rb -> load rb (base rb + off + sz rb) = load rb (base rb + off).
Proof. intros H. unfold load. rewrite phys_alias by exact H. reflexivity. Qed.

Lemma load_mapped rb off :
  Z.of_nat (length (file rb)) = sz rb -> 0 <= off < 2 * sz rb ->
  is_Some (load rb (base rb + off)).
Proof.
  intros Hf H. destruct (phys_mapped rb off H) as (i & Hi & Hlt).
  unfold load. rewrite Hi. apply lookup_lt_is_Some. lia.
Qed.

(** *** One byte stored *)

Lemma store_mapped rb off v :
  Z.of_nat (length (file rb)) = sz rb -> 0 <= off < 2 * sz rb ->
  is_Some (store rb (base rb + off) v).
Proof.
  intros Hf H. destruct (phys_mapped rb off H) as (i & Hi & Hlt).
  unfold store. rewrite Hi.
  destruct (Nat.ltb_spec i (length (file rb))); [eauto | lia].
Qed.

Lemma store_Some rb a v rb' :
  store rb a v = Some rb' ->
  exists i, phys rb a = Some i /\ (i < length (file rb))%nat
            /\ rb' = set_file rb (<[i := v]> (file rb)).
Proof.
  unfold store. destruct (phys rb a) as [i |]; [| discriminate].
  destruct (Nat.ltb_spec i (length (file rb))); [| discriminate].
  intros [= <-]. eauto.
Qed.

(** A store changes the bytes of the file only. *)
Lemma store_frame rb a v rb' :
  store rb a v = Some rb' ->
  base rb' = base rb /\ sz rb' = sz rb /\ wr_off rb' = wr_off rb
  /\ rd_off rb' = rd_off rb /\ length (file rb') = length (file rb).
Proof.
  intros H. apply store_Some in H. destruct H as (i & _ & _ & ->).
  simpl. rewrite length_insert. auto.
Qed.

Lemma load_store_same rb a v rb' a' :
  store rb a v = Some rb' -> phys rb a' = phys rb a -> load rb' a' = Some v.
Proof.
  intros H E. apply store_Some in H. destruct H as (i & Hi & Hlt & ->).
  unfold load. rewrite (phys_geom rb) by reflexivity. rewrite E, Hi. simpl.
  apply list_lookup_insert_eq. exact Hlt.
Qed.

Lemma load_store_other rb a v rb' a' :
  store rb a v = Some rb' -> phys rb a' <> phys rb a -> load rb' a' = load rb a'.
Proof.
  intros H E. apply store_Some in H. destruct H as (i & Hi & Hlt & ->).
  unfold load. rewrite (phys_geom rb) by reflexivity.
  destruct (phys rb a') as [j |]; [| reflexivity]. simpl.
  apply list_lookup_insert_ne. congruence.
Qed.

(** *** Blocks of bytes *)

Lemma store_bytes_frame l : forall rb a rb',
  store_bytes rb a l = Some rb' ->
  base rb' = base rb /\ sz rb' = sz rb /\ wr_off rb' = wr_off rb
  /\ rd_off rb' = rd_off rb /\ length (file rb') = length (file rb).
Proof.
  induction l as [| x l IH]; simpl; intros rb a rb' H.
  - injection H as <-. auto.
  - destruct (store rb a x) as [rb1 |] eqn:E; [| discriminate].
    apply store_frame in E. apply IH in H.
    destruct E as (E1 & E2 & E3 & E4 & E5), H as (H1 & H2 & H3 & H4 & H5).
    repeat split; congruence.
Qed.

(** A block that fits in the doubled range is stored without a fault. *)
Lemma store_bytes_mapped l : forall rb off,
  Z.of_nat (length (file rb)) = sz rb ->
  0 <= off -> off + Z.of_nat (length l) <= 2 * sz rb ->
  is_Some (store_bytes rb (base rb + off) l).
Proof.
  induction l as [| x l IH]; simpl; intros rb off Hf H0 H1; [eauto |].
  destruct (store_mapped rb off x Hf) as [rb1 E]; [lia |].
  rewrite E. pose proof (store_frame _ _ _ _ E) as (Hb & Hs & _ & _ & Hl).
  rewrite <- Hb, <- Z.add_assoc. apply IH; rewrite ?Hs, ?Hl; lia.
Qed.

(** Bytes that the block does not cover keep their value. *)
Lemma store_bytes_other l : forall rb a rb' a',
  store_bytes rb a l = Some rb' ->
  (forall j, (j < length l)%nat -> phys rb a' <> phys rb (a + Z.of_nat j)) ->
  load rb' a' = load rb a'.
Proof.
  induction l as [| x l IH]; simpl; intros rb a rb' a' H Hne.
  - injection H as <-. reflexivity.
  - destruct (store rb a x) as [rb1 |] eqn:E; [| discriminate].
    pose proof (store_frame _ _ _ _ E) as (Hb & Hs & _).
    rewrite (IH _ _ _ a' H).
    + apply (load_store_other _ _ _ _ _ E).
      specialize (Hne O). rewrite Z.add_0_r in Hne. apply Hne. lia.
    + intros j Hj. rewrite !(phys_geom rb rb1) by assumption.
      specialize (Hne (S j)). replace (a + 1 + Z.of_nat j) with (a + Z.of_nat (S j)) by lia.
      apply Hne. lia.
Qed.

(** A block of at most [sz] bytes reads back as it was stored, wherever it
    lies in the doubled range. *)
Lemma store_bytes_same l : forall rb off rb' j x,
  store_bytes rb (base rb + off) l = Some rb' ->
  0 <= off -> off + Z.of_nat (length l) <= 2 * sz rb ->
  Z.of_nat (length l) <= sz rb ->
  l !! j = Some x ->
  load rb' (base rb + off + Z.of_nat j) = Some x.
Proof.
  induction l as [| y l IH]; simpl; intros rb off rb' j x H H0 H1 H2 Hj.
  - discriminate.
  - destruct (store rb (base rb + off) y) as [rb1 |] eqn:E; [| discriminate].
    pose proof (store_frame _ _ _ _ E) as (Hb & Hs & _).
    destruct j as [| j]; simpl in Hj.
    + injection Hj as ->. rewrite Z.add_0_r.
      rewrite (store_bytes_other _ _ _ _ _ H).
      * apply (load_store_same _ _ _ _ _ E). reflexivity.
      * intros i Hi. rewrite !(phys_geom rb rb1) by assumption.
        replace (base rb + off + 1 + Z.of_nat i) with (base rb + (off + 1 + Z.of_nat i)) by lia.
        apply phys_apart; lia.
    + replace (base rb + off + Z.of_nat (S j)) with (base rb1 + (off + 1) + Z.of_nat j)
        by (rewrite Hb; lia).
      apply IH; rewrite ?Hb, ?Hs; try lia.
      * rewrite <- H. f_equal. lia.
      * exact Hj.
Qed.

Lemma load_bytes_ext n : forall rb rb' a a',
  (forall j, (j < n)%nat -> load rb' (a' + Z.of_nat j) = load rb (a + Z.of_nat j)) ->
  load_bytes rb' a' n = load_bytes rb a n.
Proof.
  induction n as [| n IH]; simpl; intros rb rb' a a' H; [reflexivity |].
  pose proof (H O) as H0. rewrite !Z.add_0_r in H0. rewrite H0 by lia.
  rewrite (IH rb rb' (a + 1) (a' + 1)); [reflexivity |].
  intros j Hj.
  replace (a + 1 + Z.of_nat j) with (a + Z.of_nat (S j)) by lia.
  replace (a' + 1 + Z.of_nat j) with (a' + Z.of_nat (S j)) by lia.
  apply H. lia.
Qed.

Lemma load_bytes_eq l : forall rb a,
  (forall j x, l !! j = Some x -> load rb (a + Z.of_nat j) = Some x) ->
  load_bytes rb a (length l) = Some l.
Proof.
  induction l as [| y l IH]; simpl; intros rb a H; [reflexivity |].
  pose proof (H O y eq_refl) as H0. rewrite Z.add_0_r in H0. rewrite H0.
  rewrite IH; [reflexivity |].
  intros j x Hj. replace (a + 1 + Z.of_nat j) with (a + Z.of_nat (S j)) by lia.
  apply H. exact Hj.
Qed.

Lemma load_bytes_length n : forall rb a l,
  load_bytes rb a n = Some l -> length l = n.
Proof.
  induction n as [| n IH]; simpl; intros rb a l H.
  - injection H as <-. reflexivity.
  - destruct (load rb a); [| discriminate].
    destruct (load_bytes rb (a + 1) n) eqn:E; [| discriminate].
    injection H as <-. simpl. f_equal. eapply IH, E.
Qed.

Lemma load_bytes_app n : forall rb a m l1 l2,
  load_bytes rb a n = Some l1 ->
  load_bytes rb (a + Z.of_nat n) m = Some l2 ->
  load_bytes rb a (n + m) = Some (l1 ++ l2).
Proof.
  induction n as [| n IH]; simpl; intros rb a m l1 l2 H1 H2.
  - injection H1 as <-. rewrite Z.add_0_r in H2. exact H2.
  - destruct (load rb a); [| discriminate].
    destruct (load_bytes rb (a + 1) n) as [l |] eqn:E; [| discriminate].
    injection H1 as <-.
    rewrite (IH rb (a + 1) m l l2 E); [reflexivity |].
    rewrite <- H2. f_equal. lia.
Qed.

Lemma load_bytes_take n : forall rb a l m,
  load_bytes rb a n = Some l -> (m <= n)%nat ->
  load_bytes rb a m = Some (take m l).
Proof.
  induction n as [| n IH]; simpl; intros rb a l m H Hm.
  - injection H as <-. replace m with O by lia. reflexivity.
  - destruct (load rb a) as [x |] eqn:Ex; [| discriminate].
    destruct (load_bytes rb (a + 1) n) as [l' |] eqn:E; [| discriminate].
    injection H as <-. destruct m as [| m]; [reflexivity |].
    simpl. rewrite Ex. rewrite (IH rb (a + 1) l' m E) by lia. reflexivity.
Qed.

Lemma load_bytes_drop n : forall rb a l m,
  load_bytes rb a n = Some l -> (m <= n)%nat ->
  load_bytes rb (a + Z.of_nat m) (n - m) = Some (drop m l).
Proof.
  induction n as [| n IH]; simpl; intros rb a l m H Hm.
  - injection H as <-. replace m with O by lia. reflexivity.
  - destruct (load rb a) as [x |] eqn:Ex; [| discriminate].
    destruct (load_bytes rb (a + 1) n) as [l' |] eqn:E; [| discriminate].
    injection H as <-. destruct m as [| m].
    + simpl. rewrite Z.add_0_r, Ex, E. reflexivity.
    + replace (a + Z.of_nat (S m)) with (a + 1 + Z.of_nat m) by lia.
      change (load_bytes rb (a + 1 + Z.of_nat m) (n - m) = Some (drop m l')).
      apply IH; [exact E | lia].
Qed.

(** A block that lies in the doubled range is loaded without a fault. *)
Lemma load_bytes_mapped n : forall rb off,
  Z.of_nat (length (file rb)) = sz rb ->
  0 <= off -> off + Z.of_nat n <= 2 * sz rb ->
  is_Some (load_bytes rb (base rb + off) n).
Proof.
  induction n as [| n IH]; simpl; intros rb off Hf H0 H1; [eauto |].
  destruct (load_mapped rb off Hf) as [x ->]; [lia |].
  rewrite <- Z.add_assoc.
  destruct (IH rb (off + 1) Hf) as [l ->]; [lia | lia | eauto].
Qed.

(** ** The calls, case by case *)

Lemma set_wr_off_same rb : set_wr_off rb (wr_off rb + 0) = rb.
Proof. destruct rb. unfold set_wr_off. simpl. f_equal. lia. Qed.

Lemma advance_read_0 rb : inv rb -> advance_read rb 0 = rb.
Proof.
  intros [? ? ? ? ?]. unfold advance_read.
  destruct (Z.leb_spec (sz rb) (rd_off rb + 0)); [lia |].
  destruct rb. simpl. f_equal. lia.
Qed.

Lemma read_incr_eq rb k :
  inv rb -> 0 <= k <= wr_off rb - rd_off rb -> read_incr rb k = advance_read rb k.
Proof.
  intros [? ? ? ? ?] Hk. unfold read_incr, advance_read. simpl.
  rewrite SSIZE_MAX_eq in *.
  rewrite (wrap_id (rd_off rb + k)) by (rewrite SIZE_MOD_eq; lia).
  destruct (Z.leb_spec (sz rb) (rd_off rb + k)); [| reflexivity].
  unfold set_wr_off, set_rd_off. simpl.
  rewrite !wrap_id by (rewrite SIZE_MOD_eq; lia). reflexivity.
Qed.

(** A call of [u_rb_write] that returns either reports an error and leaves
    the buffer as it is, or stores the first [k = min(avail, b_sz)] bytes of
    the block at the write address and advances the write offset by [k]. *)
Lemma write_inv rb b n r orb :
  inv rb -> is_size n -> u_rb_write (Some rb) b n = Ok (r, orb) ->
  (r = -1 /\ orb = Some rb /\ (b = None \/ sz rb < n))
  \/ (exists src r1,
        b = Some src /\ n <= sz rb
        /\ r = Z.min (u_rb_avail rb) n
        /\ r <= Z.of_nat (length src)
        /\ store_bytes rb (write_addr rb) (take (Z.to_nat r) src) = Some r1
        /\ orb = Some (set_wr_off r1 (wr_off rb + r))).
Proof.
  intros Hinv Hn. pose proof (avail_eq rb Hinv) as Ha. pose proof Hinv as [? ? ? ? ?].
  unfold is_size in Hn. unfold u_rb_write, u_rb_size. rewrite U_MIN_min.
  destruct b as [src |]; [| intros [= <- <-]; auto].
  destruct (Z.ltb_spec (sz rb) n); [intros [= <- <-]; auto |].
  set (k := Z.min (u_rb_avail rb) n).
  assert (0 <= k <= sz rb) by lia.
  rewrite to_ssize_id by lia.
  destruct (Z.eqb_spec k 0) as [E | E].
  - intros [= <- <-]. right. exists src, rb. rewrite E. simpl.
    rewrite set_wr_off_same. repeat split; auto; lia.
  - unfold memcpy_in. destruct (Z.leb_spec k (Z.of_nat (length src))); [| discriminate].
    destruct (store_bytes rb (write_addr rb) (take (Z.to_nat k) src)) as [r1 |] eqn:Es;
      [| discriminate].
    intros [= <- <-]. right. exists src, r1.
    pose proof (store_bytes_frame _ _ _ _ Es) as (_ & _ & Hw & _).
    unfold write_incr. rewrite Hw. rewrite SSIZE_MAX_eq in *.
    rewrite wrap_id by (rewrite SIZE_MOD_eq; lia). repeat split; auto.
Qed.

(** With a block of at least [b_sz] bytes the call returns. *)
Lemma write_returns rb b n :
  inv rb -> is_size n ->
  (forall src, b = Some src -> n <= Z.of_nat (length src)) ->
  exists r orb, u_rb_write (Some rb) b n = Ok (r, orb).
Proof.
  intros Hinv Hn Hb. pose proof (avail_eq rb Hinv) as Ha. pose proof Hinv as [? ? ? ? ?].
  unfold u_rb_write, u_rb_size. rewrite U_MIN_min.
  destruct b as [src |]; [| eauto].
  specialize (Hb src eq_refl).
  destruct (Z.ltb_spec (sz rb) n); [eauto |].
  set (k := Z.min (u_rb_avail rb) n).
  destruct (Z.eqb_spec k 0); [eauto |].
  unfold memcpy_in. destruct (Z.leb_spec k (Z.of_nat (length src))); [| lia].
  destruct (store_bytes_mapped (take (Z.to_nat k) src) rb (wr_off rb)) as [r1 E];
    [assumption | lia | rewrite length_take; lia |].
  unfold write_addr. rewrite E. eauto.
Qed.

(** A call of [u_rb_read] that returns either reports an error and leaves
    the buffer and the block as they are, or copies the [k = min(ready, b_sz)]
    bytes at the read address to the block and advances the read offset. *)
Lemma read_inv rb b n r orb ob :
  inv rb -> is_size n -> u_rb_read (Some rb) b n = Ok (r, orb, ob) ->
  (r = -1 /\ orb = Some rb /\ ob = b /\ (b = None \/ sz rb < n))
  \/ (exists dst l,
        b = Some dst /\ n <= sz rb
        /\ r = Z.min (u_rb_ready rb) n
        /\ r <= Z.of_nat (length dst)
        /\ load_bytes rb (read_addr rb) (Z.to_nat r) = Some l
        /\ orb = Some (advance_read rb r)
        /\ ob = Some (l ++ drop (Z.to_nat r) dst)).
Proof.
  intros Hinv Hn. pose proof (ready_eq rb Hinv) as Ha. pose proof Hinv as [? ? ? ? ?].
  unfold is_size in Hn. unfold u_rb_read, u_rb_size. rewrite U_MIN_min.
  destruct b as [dst |]; [| intros [= <- <- <-]; auto 10]. cbv zeta.
  destruct (Z.ltb_spec (sz rb) n); [intros [= <- <- <-]; auto 10 |].
  set (k := Z.min (u_rb_ready rb) n).
  assert (0 <= k <= sz rb) by lia.
  rewrite to_ssize_id by lia.
  destruct (Z.eqb_spec k 0) as [E | E].
  - intros [= <- <- <-]. right. exists dst, []. rewrite E. simpl.
    rewrite advance_read_0 by assumption. rewrite drop_0. repeat split; auto; lia.
  - unfold memcpy_out. destruct (Z.leb_spec k (Z.of_nat (length dst))); [| discriminate].
    destruct (load_bytes rb (read_addr rb) (Z.to_nat k)) as [l |] eqn:El; [| discriminate].
    intros [= <- <- <-]. right. exists dst, l.
    rewrite read_incr_eq by (assumption || lia). repeat split; auto.
Qed.

Lemma read_returns rb b n :
  inv rb -> is_size n ->
  (forall dst, b = Some dst -> n <= Z.of_nat (length dst)) ->
  exists r orb ob, u_rb_read (Some rb) b n = Ok (r, orb, ob).
Proof.
  intros Hinv Hn Hb. pose proof (ready_eq rb Hinv) as Ha. pose proof Hinv as [? ? ? ? ?].
  unfold u_rb_read, u_rb_size. rewrite U_MIN_min.
  destruct b as [dst |]; [| eauto]. cbv zeta.
  specialize (Hb dst eq_refl).
  destruct (Z.ltb_spec (sz rb) n); [eauto |].
  set (k := Z.min (u_rb_ready rb) n).
  destruct (Z.eqb_spec k 0); [eauto |].
  unfold memcpy_out. destruct (Z.leb_spec k (Z.of_nat (length dst))); [| lia].
  destruct (load_bytes_mapped (Z.to_nat k) rb (rd_off rb)) as [l E];
    [assumption | lia | lia |].
  unfold read_addr. rewrite E. eauto.
Qed.

(** ** The invariant holds in every reachable state *)

Lemma inv_write rb r1 k :
  inv rb -> 0 <= k <= u_rb_avail rb ->
  base r1 = base rb /\ sz r1 = sz rb /\ wr_off r1 = wr_off rb
  /\ rd_off r1 = rd_off rb /\ length (file r1) = length (file rb) ->
  inv (set_wr_off r1 (wr_off rb + k)).
Proof.
  intros Hinv Hk (Hb & Hs & Hw & Hr & Hl). rewrite (avail_eq rb Hinv) in Hk.
  destruct Hinv. constructor; simpl; rewrite ?Hs, ?Hr, ?Hl; lia.
Qed.

Lemma inv_advance_read rb k :
  inv rb -> 0 <= k <= u_rb_ready rb -> inv (advance_read rb k).
Proof.
  intros Hinv Hk. rewrite (ready_eq rb Hinv) in Hk. destruct Hinv.
  unfold advance_read.
  destruct (Z.leb_spec (sz rb) (rd_off rb + k)); constructor; simpl; lia.
Qed.

Lemma inv_clear rb : inv rb -> inv (set_rd_off (set_wr_off rb 0) 0).
Proof. intros []. constructor; simpl; lia. Qed.

Lemma inv_call rb o r rb' :
  inv rb -> op_typed o -> call rb o = Ok (r, Some rb') -> inv rb'.
Proof.
  intros Hinv Ht H. destruct o as [b n | b n |]; simpl in *.
  - apply write_inv in H; [| assumption | assumption].
    destruct H as [(_ & [= <-] & _) | (src & r1 & _ & Hn & Hr & _ & Hs & [= ->])];
      [assumption |].
    pose proof (avail_eq rb Hinv). pose proof Hinv as [? ? ? ? ?].
    apply inv_write; [assumption | unfold is_size in Ht; lia |].
    eapply store_bytes_frame, Hs.
  - destruct (u_rb_read (Some rb) b n) as [| [[r0 orb] ob]] eqn:E; [discriminate |].
    injection H as -> ->.
    apply read_inv in E; [| assumption | assumption].
    destruct E as [(_ & [= <-] & _) | (dst & l & _ & Hn & Hr & _ & _ & [= ->] & _)];
      [assumption |].
    pose proof (ready_eq rb Hinv). pose proof Hinv as [? ? ? ? ?].
    apply inv_advance_read; [assumption | unfold is_size in Ht; lia].
  - injection H as _ <-. apply inv_clear, Hinv.
Qed.

Lemma reachable_inv rb : reachable rb -> inv rb.
Proof.
  induction 1 as [os h rb Hpg Hh Hc | rb o r rb' _ IH Ht Hc].
  - apply (inv_create os h rb Hpg Hc).
  - apply (inv_call rb o r rb' IH Ht Hc).
Qed.

(** ** First in, first out *)

Lemma load_geom rb rb' a :
  base rb' = base rb -> sz rb' = sz rb -> file rb' = file rb -> load rb' a = load rb a.
Proof. intros Hb Hs Hf. unfold load. rewrite (phys_geom rb rb' a Hb Hs), Hf. reflexivity. Qed.

Lemma contents_Some rb :
  inv rb -> exists l, contents rb = Some l /\ Z.of_nat (length l) = u_rb_ready rb.
Proof.
  intros Hinv. pose proof (ready_eq rb Hinv) as Hr. pose proof Hinv as [? ? ? ? ?].
  destruct (load_bytes_mapped (Z.to_nat (u_rb_ready rb)) rb (rd_off rb)) as [l E];
    [assumption | lia | lia |].
  exists l. split; [exact E |].
  apply load_bytes_length in E. lia.
Qed.

(** The bytes a read copies out are the oldest ones. *)
Lemma contents_front rb old k :
  contents rb = Some old -> 0 <= k <= u_rb_ready rb ->
  load_bytes rb (read_addr rb) (Z.to_nat k) = Some (take (Z.to_nat k) old).
Proof. intros H Hk. apply (load_bytes_take _ _ _ _ _ H). lia. Qed.

(** A write appends to the buffered bytes. *)
Lemma contents_write rb l r1 old :
  inv rb -> Z.of_nat (length l) <= u_rb_avail rb ->
  store_bytes rb (write_addr rb) l = Some r1 ->
  contents rb = Some old ->
  contents (set_wr_off r1 (wr_off rb + Z.of_nat (length l))) = Some (old ++ l).
Proof.
  intros Hinv Hl Hs Ho.
  pose proof (ready_eq rb Hinv) as Hr. pose proof (avail_eq rb Hinv) as Ha.
  pose proof (store_bytes_frame _ _ _ _ Hs) as HF.
  pose proof (inv_write rb r1 (Z.of_nat (length l)) Hinv ltac:(lia) HF) as Hinv'.
  destruct HF as (Hb & Hsz & Hw & Hrd & Hlen). pose proof Hinv as [? ? ? ? ?].
  set (rb' := set_wr_off r1 (wr_off rb + Z.of_nat (length l))) in *.
  assert (forall a, load rb' a = load r1 a) as Hload
    by (intros a; apply load_geom; reflexivity).
  unfold contents. rewrite (ready_eq rb' Hinv'). unfold read_addr.
  replace (rd_off rb') with (rd_off rb) by (subst rb'; simpl; congruence).
  replace (base rb') with (base rb) by (subst rb'; simpl; congruence).
  replace (wr_off rb') with (wr_off rb + Z.of_nat (length l)) by reflexivity.
  replace (Z.to_nat (wr_off rb + Z.of_nat (length l) - rd_off rb))
    with (Z.to_nat (u_rb_ready rb) + length l)%nat by lia.
  apply load_bytes_app.
  - rewrite <- Ho. unfold contents, read_addr. apply load_bytes_ext.
    intros j Hj. rewrite Hload.
    apply (store_bytes_other _ _ _ _ _ Hs). intros i Hi.
    unfold write_addr. rewrite <- !Z.add_assoc. apply phys_apart; lia.
  - rewrite <- (load_bytes_eq l rb' (base rb + rd_off rb + Z.of_nat (Z.to_nat (u_rb_ready rb))));
      [reflexivity |].
    intros j x Hj. rewrite Hload.
    replace (base rb + rd_off rb + Z.of_nat (Z.to_nat (u_rb_ready rb)) + Z.of_nat j)
      with (base rb + wr_off rb + Z.of_nat j) by lia.
    apply (store_bytes_same l rb (wr_off rb) r1 j x Hs); [lia | lia | lia | exact Hj].
Qed.

(** A read removes the bytes it copied out and leaves the others, also
    when it pulls the two offsets back by [sz]. *)
Lemma contents_read rb old k :
  inv rb -> contents rb = Some old -> 0 <= k <= u_rb_ready rb ->
  contents (advance_read rb k) = Some (drop (Z.to_nat k) old).
Proof.
  intros Hinv Ho Hk.
  pose proof (inv_advance_read rb k Hinv Hk) as Hinv'.
  pose proof (ready_eq rb Hinv) as Hr. pose proof Hinv as [? ? ? ? ?].
  pose proof (load_bytes_drop _ _ _ _ (Z.to_nat k) Ho ltac:(lia)) as Hd.
  rewrite <- Hd. unfold contents. rewrite (ready_eq _ Hinv'). unfold read_addr, advance_read.
  destruct (Z.leb_spec (sz rb) (rd_off rb + k)); simpl.
  - replace (Z.to_nat (wr_off rb - sz rb - (rd_off rb + k - sz rb)))
      with (Z.to_nat (u_rb_ready rb) - Z.to_nat k)%nat by lia.
    apply load_bytes_ext. intros j Hj.
    rewrite (load_geom rb) by reflexivity.
    replace (base rb + rd_off rb + Z.of_nat (Z.to_nat k) + Z.of_nat j)
      with (base rb + (rd_off rb + k - sz rb + Z.of_nat j) + sz rb) by lia.
    rewrite load_alias by lia. f_equal. lia.
  - replace (Z.to_nat (wr_off rb - (rd_off rb + k)))
      with (Z.to_nat (u_rb_ready rb) - Z.to_nat k)%nat by lia.
    apply load_bytes_ext. intros j Hj.
    rewrite (load_geom rb) by reflexivity. f_equal. lia.
Qed.

(** ** Reachable buffers used as instances *)

Lemma rb8_reachable : reachable rb8.
Proof.
  apply (reach_create os8 5); [simpl; size_tac | size_tac | reflexivity].
Qed.

Lemma rb8_6_reachable : reachable rb8_6.
Proof.
  apply (reach_call (mk_rb 4096 8 6 0 (abcdef ++ [x00; x00]))
           (OpRead (Some (replicate 6 x00)) 6) 6).
  - apply (reach_call rb8 (OpWrite (Some abcdef) 6) 6).
    + exact rb8_reachable.
    + size_tac.
    + vm_compute. reflexivity.
  - size_tac.
  - vm_compute. reflexivity.
Qed.

Lemma rb8_12_reachable : reachable rb8_12.
Proof.
  apply (reach_call rb8_6 (OpWrite (Some abcdef) 6) 6).
  - exact rb8_6_reachable.
  - size_tac.
  - vm_compute. reflexivity.
Qed.

Lemma rb4k_reachable : reachable rb4k.
Proof.
  apply (reach_create os4k 0); [simpl; size_tac | size_tac | vm_compute; reflexivity].
Qed.

Lemma rb4k_a_reachable : reachable rb4k_a.
Proof.
  apply (reach_call rb4k (OpWrite (Some [x61]) 1) 1).
  - exact rb4k_reachable.
  - size_tac.
  - vm_compute. reflexivity.
Qed.

Lemma rb4k_full_reachable : reachable rb4k_full.
Proof.
  apply (reach_call rb4k (OpWrite (Some (replicate 4096 x61)) 4096) 4096).
  - exact rb4k_reachable.
  - size_tac.
  - vm_compute. reflexivity.
Qed.

(** * The claims *)

(** ** Round trip *)

(** C1, as stated, fails: the buffer [rb4k_a] is reachable and has room for
    the one byte [b], but it already holds [a]; writing [b] and reading one
    byte yields [a], the oldest byte, and not [b]. *)
Lemma C1_round_trip_counterexample :
  reachable rb4k_a
  /\ Z.of_nat (length [x62]) <= u_rb_size rb4k_a
  /\ Z.of_nat (length [x62]) <= u_rb_avail rb4k_a
  /\ u_rb_write (Some rb4k_a) (Some [x62]) 1 = Ok (1, Some rb4k_ab)
  /\ u_rb_read (Some rb4k_ab) (Some [x00]) 1 = Ok (1, Some rb4k_b, Some [x61])
  /\ [x61] <> [x62].
Proof.
  split; [exact rb4k_a_reachable |].
  repeat split; try (vm_compute; reflexivity); vm_compute; discriminate.
Qed.

(** C1 (amended): in every reachable state with [Avail(rb) >= len(S)],
    [u_rb_write] accepts all of [S], and a [u_rb_read] of [len(S)] bytes
    into a block of at least that many bytes then returns [len(S)] bytes at
    the start of the block: the first [len(S)] bytes of the bytes that were
    buffered before followed by [S], whatever the position of [S] with
    respect to the [sz] boundary; the rest stays buffered in order.  When
    the buffer was empty ([Ready(rb) = 0]) the bytes read are exactly [S]. *)
Theorem C1_round_trip (rb : u_rb_t) (S dst : list byte) :
  reachable rb ->
  Z.of_nat (length S) <= u_rb_avail rb ->
  (length S <= length dst)%nat ->
  exists old rb1 rb2,
    contents rb = Some old
    /\ u_rb_write (Some rb) (Some S) (Z.of_nat (length S))
       = Ok (Z.of_nat (length S), Some rb1)
    /\ u_rb_read (Some rb1) (Some dst) (Z.of_nat (length S))
       = Ok (Z.of_nat (length S), Some rb2,
             Some (take (length S) (old ++ S) ++ drop (length S) dst))
    /\ contents rb2 = Some (drop (length S) (old ++ S))
    /\ (u_rb_ready rb = 0 -> take (length S) (old ++ S) = S).
Proof.
  intros Hreach Hav Hdst. pose proof (reachable_inv rb Hreach) as Hinv.
  pose proof (ready_eq rb Hinv) as Hr. pose proof (avail_eq rb Hinv) as Ha.
  pose proof Hinv as [? ? ? ? ?].
  set (n := Z.of_nat (length S)) in *.
  assert (is_size n) as Hn
    by (unfold is_size; rewrite SIZE_MOD_eq; rewrite SSIZE_MAX_eq in *; lia).
  destruct (contents_Some rb Hinv) as (old & Hold & Hlen).
  (* the write *)
  destruct (write_returns rb (Some S) n Hinv Hn) as (r & orb & Hw);
    [intros src [= <-]; lia |].
  destruct (write_inv rb (Some S) n r orb Hinv Hn Hw)
    as [(_ & _ & [E | E]) | (src & r1 & [= <-] & _ & Hrn & _ & Hst & ->)];
    [discriminate | lia |].
  assert (r = n) as -> by lia.
  replace (take (Z.to_nat n) S) with S in Hst by (symmetry; apply take_ge; lia).
  pose proof (contents_write rb S r1 old Hinv Hav Hst Hold) as Hc1. fold n in Hc1.
  pose proof (store_bytes_frame _ _ _ _ Hst) as HF.
  pose proof (inv_write rb r1 n Hinv ltac:(lia) HF) as Hinv1.
  set (rb1 := set_wr_off r1 (wr_off rb + n)) in *.
  assert (u_rb_ready rb1 = u_rb_ready rb + n) as Hr1.
  { rewrite (ready_eq rb1 Hinv1). destruct HF as (_ & _ & _ & Hrd & _).
    subst rb1. simpl. lia. }
  assert (sz rb1 = sz rb) as Hsz1 by (destruct HF as (_ & Hs & _); exact Hs).
  (* the read *)
  destruct (read_returns rb1 (Some dst) n Hinv1 Hn) as (r & orb & ob & Hrd);
    [intros d [= <-]; lia |].
  destruct (read_inv rb1 (Some dst) n r orb ob Hinv1 Hn Hrd)
    as [(_ & _ & _ & [E | E]) | (d & l & [= <-] & _ & Hrn' & _ & Hl & -> & ->)];
    [discriminate | lia |].
  assert (r = n) as -> by lia.
  rewrite (contents_front rb1 (old ++ S) n Hc1) in Hl by lia. injection Hl as <-.
  replace (Z.to_nat n) with (length S) in * by lia.
  exists old, rb1, (advance_read rb1 n). repeat split.
  - exact Hold.
  - exact Hw.
  - exact Hrd.
  - replace (length S) with (Z.to_nat n) by lia.
    apply contents_read; [exact Hinv1 | exact Hc1 | lia].
  - intros H0. destruct old as [| x old]; [| simpl in Hlen; lia].
    simpl. apply take_ge. lia.
Qed.

(** An instance of C1 in which the six bytes written straddle the end of the
    file of an empty buffer whose offsets are both 6 out of 8. *)
Lemma C1_round_trip_witness :
  reachable rb8_6
  /\ Z.of_nat (length abcdef) <= u_rb_avail rb8_6
  /\ exists old rb1 rb2,
    contents rb8_6 = Some old
    /\ u_rb_write (Some rb8_6) (Some abcdef) (Z.of_nat (length abcdef))
       = Ok (Z.of_nat (length abcdef), Some rb1)
    /\ u_rb_read (Some rb1) (Some (replicate 8 x00)) (Z.of_nat (length abcdef))
       = Ok (Z.of_nat (length abcdef), Some rb2,
             Some (take (length abcdef) (old ++ abcdef)
                   ++ drop (length abcdef) (replicate 8 x00)))
    /\ contents rb2 = Some (drop (length abcdef) (old ++ abcdef))
    /\ (u_rb_ready rb8_6 = 0 -> take (length abcdef) (old ++ abcdef) = abcdef).
Proof.
  split; [exact rb8_6_reachable |].
  split; [vm_compute; discriminate |].
  apply (C1_round_trip rb8_6 abcdef (replicate 8 x00)).
  - exact rb8_6_reachable.
  - vm_compute. discriminate.
  - simpl. lia.
Defined.

(** ** Offsets *)

Lemma inv_offsets_bounded rb : inv rb -> offsets_bounded rb.
Proof. intros [? ? ? ? ?]. unfold offsets_bounded. lia. Qed.

(** C2: in every state reachable from [u_rb_create] by [u_rb_write],
    [u_rb_read] and [u_rb_clear] the offsets satisfy
    [0 <= rd_off <= wr_off], [wr_off - rd_off <= sz] and [wr_off < 2 * sz],
    and every call made in such a state leaves a state that satisfies them. *)
Theorem C2_offset_invariant (rb : u_rb_t) :
  reachable rb ->
  offsets_bounded rb
  /\ forall o r rb', op_typed o -> call rb o = Ok (r, Some rb') -> offsets_bounded rb'.
Proof.
  intros Hreach. split.
  - apply inv_offsets_bounded, reachable_inv, Hreach.
  - intros o r rb' Ht Hc. apply inv_offsets_bounded, reachable_inv.
    exact (reach_call rb o r rb' Hreach Ht Hc).
Qed.

Lemma C2_offset_invariant_witness :
  reachable rb8_12
  /\ offsets_bounded rb8_12
  /\ forall o r rb', op_typed o -> call rb8_12 o = Ok (r, Some rb') -> offsets_bounded rb'.
Proof.
  split; [exact rb8_12_reachable |].
  apply (C2_offset_invariant rb8_12). exact rb8_12_reachable.
Defined.

(** C3: a [u_rb_read] on a reachable buffer that transfers
    [k = min(Ready(rb), n) > 0] bytes advances the read offset by [k] and,
    exactly when the advanced read offset is [>= sz], subtracts [sz] from
    both offsets; with or without that subtraction the ready count is
    [wr_off - (rd_off + k)], and both offsets stay in [0, 2 * sz). *)
Theorem C3_read_normalization (rb : u_rb_t) (b : option (list byte)) (n r : Z)
    (rb' : u_rb_t) (ob : option (list byte)) :
  reachable rb -> is_size n ->
  u_rb_read (Some rb) b n = Ok (r, Some rb', ob) ->
  0 < r ->
  r = Z.min (u_rb_ready rb) n
  /\ rb' = read_incr rb r
  /\ (sz rb <= rd_off rb + r ->
      rd_off rb' = rd_off rb + r - sz rb /\ wr_off rb' = wr_off rb - sz rb)
  /\ (rd_off rb + r < sz rb ->
      rd_off rb' = rd_off rb + r /\ wr_off rb' = wr_off rb)
  /\ u_rb_ready rb' = wr_off rb - (rd_off rb + r)
  /\ u_rb_ready rb' = u_rb_ready rb - r
  /\ sz rb' = sz rb
  /\ 0 <= rd_off rb' < 2 * sz rb
  /\ 0 <= wr_off rb' < 2 * sz rb.
Proof.
  intros Hreach Hn Hrd Hpos. pose proof (reachable_inv rb Hreach) as Hinv.
  pose proof (ready_eq rb Hinv) as Hr. unfold is_size in Hn.
  destruct (read_inv rb b n r (Some rb') ob Hinv Hn Hrd)
    as [(E & _) | (dst & l & -> & Hle & Hk & _ & _ & [= ->] & _)]; [lia |].
  assert (0 <= r <= u_rb_ready rb) as Hk' by lia.
  pose proof (inv_advance_read rb r Hinv Hk') as Hinv'.
  pose proof (ready_eq _ Hinv') as Hr'.
  rewrite Hr'. rewrite (read_incr_eq rb r Hinv) by lia.
  pose proof Hinv as [? ? ? ? ?]. clear Hinv' Hr'.
  unfold advance_read.
  destruct (Z.leb_spec (sz rb) (rd_off rb + r)); simpl; repeat split; lia.
Qed.

(** An instance of C3 in which the offsets are pulled back: 6 bytes read at
    the offsets 6 and 12 of a buffer of 8 bytes leave both offsets at 4. *)
Lemma C3_read_normalization_witness :
  reachable rb8_12 /\ is_size 6 /\ 0 < 6
  /\ rd_off (mk_rb 4096 8 4 4 (file rb8_12)) = rd_off rb8_12 + 6 - sz rb8_12
  /\ wr_off (mk_rb 4096 8 4 4 (file rb8_12)) = wr_off rb8_12 - sz rb8_12.
Proof.
  split; [exact rb8_12_reachable |].
  split; [size_tac |].
  split; [lia |].
  apply (C3_read_normalization rb8_12 (Some (replicate 6 x00)) 6 6
           (mk_rb 4096 8 4 4 (file rb8_12)) (Some abcdef)).
  - exact rb8_12_reachable.
  - size_tac.
  - vm_compute. reflexivity.
  - lia.
  - simpl. lia.
Defined.

(** C9: in every reachable state the read offset is strictly less than
    [sz], so the read address lies in the first mapped half, and the write
    address lies in the doubled range; both are mapped. *)
Theorem C9_read_offset_first_half (rb : u_rb_t) :
  reachable rb ->
  rd_off rb < sz rb
  /\ base rb <= read_addr rb < base rb + sz rb
  /\ base rb <= write_addr rb < base rb + 2 * sz rb
  /\ is_Some (phys rb (read_addr rb))
  /\ is_Some (phys rb (write_addr rb)).
Proof.
  intros Hreach. pose proof (reachable_inv rb Hreach) as [? ? ? ? ?].
  unfold read_addr, write_addr. repeat split; try lia.
  - destruct (phys_mapped rb (rd_off rb)) as (i & -> & _); [lia | eauto].
  - destruct (phys_mapped rb (wr_off rb)) as (i & -> & _); [lia | eauto].
Qed.

Lemma C9_read_offset_first_half_witness :
  reachable rb8_12
  /\ rd_off rb8_12 < sz rb8_12
  /\ base rb8_12 <= read_addr rb8_12 < base rb8_12 + sz rb8_12
  /\ base rb8_12 <= write_addr rb8_12 < base rb8_12 + 2 * sz rb8_12
  /\ is_Some (phys rb8_12 (read_addr rb8_12))
  /\ is_Some (phys rb8_12 (write_addr rb8_12)).
Proof.
  split; [exact rb8_12_reachable |].
  apply (C9_read_offset_first_half rb8_12). exact rb8_12_reachable.
Defined.

(** ** Calls that move nothing *)

(** C10: on a reachable buffer, with a data pointer that is not NULL,
    [u_rb_write] and [u_rb_read] of 0 bytes return 0 and leave the buffer,
    offsets and bytes, and the caller's block as they are. *)
Theorem C10_zero_length_noop (rb : u_rb_t) (blk : list byte) :
  reachable rb ->
  u_rb_write (Some rb) (Some blk) 0 = Ok (0, Some rb)
  /\ u_rb_read (Some rb) (Some blk) 0 = Ok (0, Some rb, Some blk).
Proof.
  intros Hreach. pose proof (reachable_inv rb Hreach) as Hinv.
  pose proof (ready_eq rb Hinv) as Hr. pose proof (avail_eq rb Hinv) as Ha.
  pose proof Hinv as [? ? ? ? ?].
  unfold u_rb_write, u_rb_read, u_rb_size. rewrite !U_MIN_min.
  destruct (Z.ltb_spec (sz rb) 0); [lia |].
  replace (Z.min (u_rb_avail rb) 0) with 0 by lia.
  replace (Z.min (u_rb_ready rb) 0) with 0 by lia.
  split; reflexivity.
Qed.

Lemma C10_zero_length_noop_witness :
  reachable rb8_12
  /\ u_rb_write (Some rb8_12) (Some abcdef) 0 = Ok (0, Some rb8_12)
  /\ u_rb_read (Some rb8_12) (Some abcdef) 0 = Ok (0, Some rb8_12, Some abcdef).
Proof.
  split; [exact rb8_12_reachable |].
  apply (C10_zero_length_noop rb8_12 abcdef). exact rb8_12_reachable.
Defined.

(** ** Errors *)

(** C5: [u_rb_write] and [u_rb_read] return the error -1 if and only if the
    buffer reference or the data pointer is NULL or the requested size
    exceeds the size of the buffer; a call that returns the error leaves the
    buffer (offsets and bytes) and the caller's block unchanged; with
    arguments that are not refused the value returned is a count in
    [0, n]; and the calls do return, with refused arguments as well as with
    a block of at least [n] bytes. *)
Theorem C5_invalid_argument (orb : option u_rb_t) (b : option (list byte)) (n : Z) :
  valid_ref orb -> is_size n ->
  (forall r orb', u_rb_write orb b n = Ok (r, orb') ->
     (r = -1 <-> invalid_argument orb b n)
     /\ (r = -1 -> orb' = orb)
     /\ (r <> -1 -> 0 <= r <= n))
  /\ (forall r orb' ob, u_rb_read orb b n = Ok (r, orb', ob) ->
     (r = -1 <-> invalid_argument orb b n)
     /\ (r = -1 -> orb' = orb /\ ob = b)
     /\ (r <> -1 -> 0 <= r <= n))
  /\ (invalid_argument orb b n \/ block_holds b n ->
      (exists r orb', u_rb_write orb b n = Ok (r, orb'))
      /\ (exists r orb' ob, u_rb_read orb b n = Ok (r, orb', ob))).
Proof.
  intros Hv Hn. destruct orb as [rb |].
  - simpl in Hv. pose proof (reachable_inv rb Hv) as Hinv.
    pose proof (ready_eq rb Hinv) as Hr. pose proof (avail_eq rb Hinv) as Ha.
    pose proof Hinv as [? ? ? ? ?]. pose proof Hn as Hn'. unfold is_size in Hn'.
    split; [| split].
    + intros r orb' Hw.
      destruct (write_inv rb b n r orb' Hinv Hn Hw)
        as [(-> & -> & Hc) | (src & r1 & -> & Hle & -> & _)].
      * repeat split; try tauto; try lia.
        intros _. unfold invalid_argument, u_rb_size.
        destruct Hc as [-> | Hc]; [auto | right; right; eauto].
      * repeat split; try lia.
        intros [E | [E | (rb0 & [= <-] & E)]]; try discriminate.
        unfold u_rb_size in E. lia.
    + intros r orb' ob Hrd.
      destruct (read_inv rb b n r orb' ob Hinv Hn Hrd)
        as [(-> & -> & -> & Hc) | (dst & l & -> & Hle & -> & _)].
      * repeat split; try tauto; try lia.
        intros _. unfold invalid_argument, u_rb_size.
        destruct Hc as [-> | Hc]; [auto | right; right; eauto].
      * repeat split; try lia.
        intros [E | [E | (rb0 & [= <-] & E)]]; try discriminate.
        unfold u_rb_size in E. lia.
    + intros [[E | [-> | (rb0 & [= <-] & E)]] | Hb].
      * discriminate.
      * split; simpl; eauto.
      * unfold u_rb_size in E. unfold u_rb_write, u_rb_read, u_rb_size.
        destruct (Z.ltb_spec (sz rb) n); [| lia]. destruct b; split; eauto.
      * split; [apply write_returns | apply read_returns]; assumption.
  - split; [| split].
    + intros r orb' [= <- <-]. unfold invalid_argument. repeat split; auto; lia.
    + intros r orb' ob Hrd. unfold invalid_argument.
      destruct b; injection Hrd as <- <- <-; repeat split; auto; lia.
    + intros _. split; [simpl; eauto |]. destruct b; simpl; eauto.
Qed.

(** An instance of C5: nine bytes are refused by a buffer of eight. *)
Lemma C5_invalid_argument_witness :
  valid_ref (Some rb8) /\ is_size 9
  /\ forall r orb', u_rb_write (Some rb8) (Some abcdef) 9 = Ok (r, orb') ->
     (r = -1 <-> invalid_argument (Some rb8) (Some abcdef) 9)
     /\ (r = -1 -> orb' = Some rb8)
     /\ (r <> -1 -> 0 <= r <= 9).
Proof.
  split; [exact rb8_reachable |].
  split; [size_tac |].
  apply (C5_invalid_argument (Some rb8) (Some abcdef) 9).
  - exact rb8_reachable.
  - size_tac.
Defined.

(** ** Full and empty buffers *)

(** C6, as stated, fails: the page [rb4k_full] is reachable and full, and a
    write of 4097 bytes, more than its size, returns the error -1 instead of
    0 (so does a write with a NULL block). *)
Lemma C6_full_buffer_counterexample :
  reachable rb4k_full
  /\ u_rb_avail rb4k_full = 0
  /\ 0 < 4097
  /\ u_rb_write (Some rb4k_full) (Some (replicate 4097 x62)) 4097
     = Ok (-1, Some rb4k_full)
  /\ u_rb_write (Some rb4k_full) None 1 = Ok (-1, Some rb4k_full)
  /\ -1 <> 0.
Proof.
  split; [exact rb4k_full_reachable |].
  repeat split; try (vm_compute; reflexivity); lia.
Qed.

(** C6 (amended): on a reachable buffer with [Avail(rb) = 0], [u_rb_write]
    with a block that is not NULL and any [n] with [0 < n <= Size(rb)]
    returns 0 and leaves the buffer, offsets and bytes, unchanged. *)
Theorem C6_full_buffer_backpressure (rb : u_rb_t) (blk : list byte) (n : Z) :
  reachable rb -> u_rb_avail rb = 0 -> 0 < n <= u_rb_size rb ->
  u_rb_write (Some rb) (Some blk) n = Ok (0, Some rb).
Proof.
  intros _ Ha Hn. unfold u_rb_write. rewrite U_MIN_min, Ha.
  destruct (Z.ltb_spec (u_rb_size rb) n); [lia |].
  replace (Z.min 0 n) with 0 by lia. reflexivity.
Qed.

Lemma C6_full_buffer_backpressure_witness :
  reachable rb4k_full /\ u_rb_avail rb4k_full = 0 /\ 0 < 4096 <= u_rb_size rb4k_full
  /\ u_rb_write (Some rb4k_full) (Some [x62]) 4096 = Ok (0, Some rb4k_full).
Proof.
  assert (u_rb_avail rb4k_full = 0) as Ha by (vm_compute; reflexivity).
  assert (0 < 4096 <= u_rb_size rb4k_full) as Hn by (unfold u_rb_size; simpl; lia).
  split; [exact rb4k_full_reachable |].
  split; [exact Ha |]. split; [exact Hn |].
  apply (C6_full_buffer_backpressure rb4k_full [x62] 4096 rb4k_full_reachable Ha Hn).
Defined.

Lemma fresh_or_cleared_offsets rb :
  fresh_or_cleared rb -> wr_off rb = 0 /\ rd_off rb = 0.
Proof.
  intros [os h rb' H | rb0 rb' H].
  - apply create_Some in H. destruct H as (-> & _). auto.
  - injection H as <-. auto.
Qed.

(** C7, as stated, fails: on the page [rb4k], fresh from [u_rb_create], and
    on the page [rb4k_cleared], left by [u_rb_clear], a read of 4097 bytes,
    more than the size of the buffer, returns the error -1 instead of 0. *)
Lemma C7_empty_buffer_counterexample :
  u_rb_create os4k 0 = Some rb4k
  /\ u_rb_clear (Some rb4k_full) = (0, Some rb4k_cleared)
  /\ 0 < 4097
  /\ u_rb_read (Some rb4k) (Some (replicate 4097 x00)) 4097
     = Ok (-1, Some rb4k, Some (replicate 4097 x00))
  /\ u_rb_read (Some rb4k_cleared) (Some (replicate 4097 x00)) 4097
     = Ok (-1, Some rb4k_cleared, Some (replicate 4097 x00))
  /\ -1 <> 0.
Proof. repeat split; try (vm_compute; reflexivity); lia. Qed.

(** C7 (amended): on a buffer fresh from [u_rb_create] or just left by
    [u_rb_clear], [u_rb_read] with a block that is not NULL and any [n] with
    [0 < n <= Size(rb)] returns 0 and changes nothing. *)
Theorem C7_empty_buffer_starvation (rb : u_rb_t) (blk : list byte) (n : Z) :
  fresh_or_cleared rb -> 0 < n <= u_rb_size rb ->
  u_rb_read (Some rb) (Some blk) n = Ok (0, Some rb, Some blk).
Proof.
  intros Hf Hn. apply fresh_or_cleared_offsets in Hf. destruct Hf as (Hw & Hr).
  unfold u_rb_read, u_rb_ready. rewrite U_MIN_min, Hw, Hr.
  destruct (Z.ltb_spec (u_rb_size rb) n); [lia |].
  change (wrap (0 - 0)) with 0.
  replace (Z.min 0 n) with 0 by lia. reflexivity.
Qed.

Lemma C7_empty_buffer_starvation_witness :
  fresh_or_cleared rb4k_cleared /\ 0 < 4096 <= u_rb_size rb4k_cleared
  /\ u_rb_read (Some rb4k_cleared) (Some [x00]) 4096 = Ok (0, Some rb4k_cleared, Some [x00]).
Proof.
  assert (fresh_or_cleared rb4k_cleared) as Hf
    by (apply (is_cleared rb4k_full); vm_compute; reflexivity).
  assert (0 < 4096 <= u_rb_size rb4k_cleared) as Hn by (unfold u_rb_size; simpl; lia).
  split; [exact Hf |]. split; [exact Hn |].
  apply (C7_empty_buffer_starvation rb4k_cleared [x00] 4096 Hf Hn).
Defined.

(** ** Conservation *)

(** What a call that reports no error does to the ready count. *)
Lemma call_ready rb o r rb' :
  inv rb -> op_typed o -> call rb o = Ok (r, Some rb') -> 0 <= r ->
  match o with
  | OpWrite _ _ => u_rb_ready rb' = u_rb_ready rb + r
  | OpRead _ _ => u_rb_ready rb' = u_rb_ready rb - r
  | OpClear => u_rb_ready rb' = 0
  end.
Proof.
  intros Hinv Ht Hc Hr0. pose proof (inv_call rb o r rb' Hinv Ht Hc) as Hinv'.
  rewrite (ready_eq rb' Hinv'). pose proof (ready_eq rb Hinv) as Hr.
  destruct o as [b n | b n |]; simpl in *.
  - destruct (write_inv rb b n r (Some rb') Hinv Ht Hc)
      as [(-> & _) | (src & r1 & _ & _ & _ & _ & Hs & [= ->])]; [lia |].
    apply store_bytes_frame in Hs. destruct Hs as (_ & _ & _ & Hrd & _).
    simpl. lia.
  - destruct (u_rb_read (Some rb) b n) as [| [[r0 orb] ob]] eqn:E; [discriminate |].
    injection Hc as -> ->.
    destruct (read_inv rb b n r (Some rb') ob Hinv Ht E)
      as [(-> & _) | (dst & l & _ & _ & Hk & _ & _ & [= ->] & _)]; [lia |].
    destruct Hinv. unfold advance_read.
    destruct (Z.leb_spec (sz rb) (rd_off rb + r)); simpl; lia.
  - injection Hc as _ <-. reflexivity.
Qed.

Lemma run_conserves ops : forall rb rb' w d,
  inv rb -> Forall op_typed ops -> run rb ops = Some (rb', w, d) ->
  inv rb' /\ 0 <= w /\ 0 <= d /\ u_rb_ready rb' = u_rb_ready rb + w - d.
Proof.
  induction ops as [| o ops IH]; intros rb rb' w d Hinv Ht Hrun.
  - injection Hrun as <- <- <-. split; [exact Hinv | lia].
  - apply Forall_cons in Ht. destruct Ht as (Ht & Hts).
    assert (exists r rb1 w1 d1,
               call rb o = Ok (r, Some rb1) /\ 0 <= r
               /\ run rb1 ops = Some (rb', w1, d1)
               /\ match o with
                  | OpWrite _ _ => w = r + w1 /\ d = d1
                  | OpRead _ _ => w = w1 /\ d = r + d1
                  | OpClear => False
                  end) as (r & rb1 & w1 & d1 & Hc & Hr0 & Hrest & Hsum).
    { destruct o as [b n | b n |]; [| | discriminate];
        cbn [run] in Hrun;
        destruct (call rb _) as [| [r [rb1 |]]] eqn:Ec; try discriminate;
        destruct (Z.ltb_spec r 0); try discriminate;
        destruct (run rb1 ops) as [[[rb2 w1] d1] |] eqn:Er; try discriminate;
        injection Hrun as <- <- <-; exists r, rb1, w1, d1; auto. }
    pose proof (inv_call rb o r rb1 Hinv Ht Hc) as Hinv1.
    pose proof (call_ready rb o r rb1 Hinv Ht Hc Hr0) as Hready.
    destruct (IH rb1 rb' w1 d1 Hinv1 Hts Hrest) as (Hinv' & Hw1 & Hd1 & Heq).
    destruct o; [| | contradiction]; destruct Hsum as (-> & ->);
      (split; [exact Hinv' | lia]).
Qed.

(** C4: in every reachable state [Ready(rb) + Avail(rb) = Size(rb)]; and
    after any run of [u_rb_write] and [u_rb_read] calls that report no error,
    started on a fresh or cleared buffer, [Ready(rb)] is the sum of the
    values the writes returned minus the sum of the values the reads
    returned (and the first equation still holds). *)
Theorem C4_conservation (rb : u_rb_t) :
  reachable rb ->
  u_rb_ready rb + u_rb_avail rb = u_rb_size rb
  /\ forall ops rb' w d,
       fresh_or_cleared rb -> Forall op_typed ops ->
       run rb ops = Some (rb', w, d) ->
       u_rb_ready rb' = w - d
       /\ u_rb_ready rb' + u_rb_avail rb' = u_rb_size rb'.
Proof.
  intros Hreach. pose proof (reachable_inv rb Hreach) as Hinv.
  assert (forall x, inv x -> u_rb_ready x + u_rb_avail x = u_rb_size x) as Hsum.
  { intros x Hx. rewrite (avail_eq x Hx), (ready_eq x Hx). unfold u_rb_size. lia. }
  split; [apply Hsum, Hinv |].
  intros ops rb' w d Hf Ht Hrun.
  destruct (run_conserves ops rb rb' w d Hinv Ht Hrun) as (Hinv' & _ & _ & Heq).
  split; [| apply Hsum, Hinv'].
  apply fresh_or_cleared_offsets in Hf. destruct Hf as (Hw & Hr).
  rewrite Heq, (ready_eq rb Hinv), Hw, Hr. lia.
Qed.

(** An instance of C4: six bytes written to a fresh buffer and read back. *)
Lemma C4_conservation_witness :
  reachable rb8 /\ fresh_or_cleared rb8
  /\ Forall op_typed [OpWrite (Some abcdef) 6; OpRead (Some (replicate 6 x00)) 6]
  /\ u_rb_ready rb8_6 = 6 - 6
  /\ u_rb_ready rb8_6 + u_rb_avail rb8_6 = u_rb_size rb8_6.
Proof.
  assert (fresh_or_cleared rb8) as Hf by (apply (is_fresh os8 5); reflexivity).
  assert (Forall op_typed [OpWrite (Some abcdef) 6; OpRead (Some (replicate 6 x00)) 6]) as Ht
    by (repeat apply Forall_cons_2; try apply Forall_nil_2;
        size_tac).
  split; [exact rb8_reachable |]. split; [exact Hf |]. split; [exact Ht |].
  apply (proj2 (C4_conservation rb8 rb8_reachable)
           [OpWrite (Some abcdef) 6; OpRead (Some (replicate 6 x00)) 6] rb8_6 6 6 Hf Ht).
  vm_compute. reflexivity.
Defined.

(** ** Capacity *)

Lemma round_sz_exact pg h m :
  0 < pg -> 0 < h -> (pg | m) -> h <= m -> m < SIZE_MOD ->
  round_sz pg h = ((h - 1) / pg + 1) * pg /\ ((h - 1) / pg + 1) * pg <= m.
Proof.
  intros Hpg Hh [t ->] Hle Hm. rewrite SIZE_MOD_eq in Hm. unfold round_sz.
  destruct (Z.eqb_spec h 0); [lia |].
  pose proof (Z.div_mod (h - 1) pg ltac:(lia)) as Hdm.
  pose proof (Z.mod_pos_bound (h - 1) pg Hpg) as Hmod.
  pose proof (Z.div_pos (h - 1) pg ltac:(lia) Hpg) as Hq.
  set (q := (h - 1) / pg) in *.
  assert (q + 1 <= t) by nia.
  assert ((q + 1) * pg <= t * pg) by nia.
  rewrite (wrap_id (h - 1)) by (rewrite SIZE_MOD_eq; lia). fold q.
  rewrite (wrap_id (q + 1)) by (rewrite SIZE_MOD_eq; nia).
  rewrite wrap_id by (rewrite SIZE_MOD_eq; nia).
  split; [reflexivity | assumption].
Qed.

(** The rounding in unbounded arithmetic, reduced once at the end. *)
Lemma round_sz_mod pg h :
  is_size h -> h <> 0 ->
  round_sz pg h = (((h - 1) / pg + 1) * pg) mod SIZE_MOD.
Proof.
  intros Hh Hne. unfold round_sz. destruct (Z.eqb_spec h 0); [contradiction |].
  rewrite (wrap_id (h - 1)) by size_tac. unfold wrap.
  apply Z.mul_mod_idemp_l. rewrite SIZE_MOD_eq. lia.
Qed.

(** With a page size that divides [2^64] the rounding either is exact or
    wraps around to 0. *)
Lemma round_sz_pow2 pg h :
  0 < pg -> (pg | SIZE_MOD) -> is_size h -> h <> 0 ->
  round_sz pg h = ((h - 1) / pg + 1) * pg \/ round_sz pg h = 0.
Proof.
  intros Hpg [K HK] Hh Hne. rewrite (round_sz_mod pg h Hh Hne).
  pose proof (Z.div_mod (h - 1) pg ltac:(lia)) as Hdm.
  pose proof (Z.mod_pos_bound (h - 1) pg Hpg) as Hmod.
  pose proof (Z.div_pos (h - 1) pg ltac:(size_tac) Hpg) as Hq.
  set (q := (h - 1) / pg) in *. unfold is_size in Hh.
  assert (q + 1 <= K) by nia.
  destruct (Z.eq_dec (q + 1) K) as [E | E].
  - right. rewrite E, <- HK. apply Z.mod_same. rewrite SIZE_MOD_eq. lia.
  - left. apply Z.mod_small. nia.
Qed.

(** With pages of 4096 bytes the rounding of the hint [2^64 - 1] wraps
    around to 0, and [u_rb_create] returns no buffer for it even when the
    platform grants every request: the reservation of 0 bytes is refused. *)
Example hint_wraps_no_buffer :
  is_size (2 ^ 64 - 1)
  /\ round_sz 4096 (2 ^ 64 - 1) = 0
  /\ u_rb_create os4k (2 ^ 64 - 1) = None.
Proof.
  split; [size_tac |]. split; vm_compute; reflexivity.
Qed.

(** Where some multiple of the page size that is [>= h] is a [size_t],
    [round_sz] computes the least positive one, and that is the size of the
    buffer [u_rb_create] returns for [h]. *)
Lemma round_sz_least (pg h : Z) :
  0 < pg -> is_size pg -> is_size h ->
  (exists m, (pg | m) /\ h <= m /\ is_size m) ->
  0 < round_sz pg h
  /\ (pg | round_sz pg h)
  /\ h <= round_sz pg h
  /\ (forall m, 0 < m -> (pg | m) -> h <= m -> round_sz pg h <= m)
  /\ (h = 0 -> round_sz pg h = pg)
  /\ (forall os rb, sc_page_size os = pg -> u_rb_create os h = Some rb ->
        u_rb_size rb = round_sz pg h).
Proof.
  intros Hpg Hpgs Hh (m0 & Hdiv0 & Hle0 & Hm0).
  assert (forall os rb, sc_page_size os = pg -> u_rb_create os h = Some rb ->
            u_rb_size rb = round_sz pg h) as Hcreate.
  { intros os rb <- Hc. apply create_Some in Hc. destruct Hc as (-> & _). reflexivity. }
  unfold is_size in *. destruct (Z.eq_dec h 0) as [-> | Hne].
  - change (round_sz pg 0) with pg in *. repeat split; try lia.
    + apply Z.divide_refl.
    + intros m Hm [t ->] _. destruct (Z.le_gt_cases t 0); nia.
    + exact Hcreate.
  - destruct (round_sz_exact pg h m0 Hpg ltac:(lia) Hdiv0 Hle0 ltac:(lia)) as (E & _).
    pose proof (Z.div_mod (h - 1) pg ltac:(lia)) as Hdm.
    pose proof (Z.mod_pos_bound (h - 1) pg Hpg) as Hmod.
    pose proof (Z.div_pos (h - 1) pg ltac:(lia) Hpg) as Hq.
    repeat split.
    + rewrite E. nia.
    + rewrite E. apply Z.divide_factor_r.
    + rewrite E. nia.
    + intros m Hm Hdiv Hle. rewrite E.
      destruct (Z.lt_ge_cases m SIZE_MOD) as [Hlt | Hge].
      * apply (round_sz_exact pg h m Hpg ltac:(lia) Hdiv Hle Hlt).
      * pose proof (round_sz_exact pg h m0 Hpg ltac:(lia) Hdiv0 Hle0 ltac:(lia)) as (_ & Hb).
        lia.
    + intros ->. lia.
    + exact Hcreate.
Qed.



(** * Further properties of the code *)

(** ** Writes append, reads take from the front *)

Lemma contents_nil rb : u_rb_ready rb = 0 -> contents rb = Some [].
Proof. unfold contents. intros ->. reflexivity. Qed.

Lemma contents_length rb old :
  contents rb = Some old -> Z.of_nat (length old) = u_rb_ready rb.
Proof.
  intros H. apply load_bytes_length in H. rewrite H.
  pose proof (wrap_range (wr_off rb - rd_off rb)) as Hr. unfold is_size in Hr.
  unfold u_rb_ready. lia.
Qed.

(** What a write that reports no error does to the buffered bytes. *)
Lemma write_fifo rb src n r rb' old :
  inv rb -> is_size n ->
  u_rb_write (Some rb) (Some src) n = Ok (r, Some rb') -> 0 <= r ->
  contents rb = Some old ->
  r = Z.min (u_rb_avail rb) n
  /\ inv rb'
  /\ contents rb' = Some (old ++ take (Z.to_nat r) src)
  /\ u_rb_ready rb' = u_rb_ready rb + r
  /\ rd_off rb' = rd_off rb /\ sz rb' = sz rb /\ base rb' = base rb
  /\ length (file rb') = length (file rb).
Proof.
  intros Hinv Hn Hw Hr0 Hold.
  pose proof (ready_eq rb Hinv) as Hr. pose proof (avail_eq rb Hinv) as Ha.
  destruct (write_inv rb (Some src) n r (Some rb') Hinv Hn Hw)
    as [(-> & _) | (src' & r1 & [= <-] & Hle & Hk & Hlen & Hs & [= ->])]; [lia |].
  pose proof (store_bytes_frame _ _ _ _ Hs) as HF.
  assert (Z.of_nat (length (take (Z.to_nat r) src)) = r) as Hl
    by (rewrite length_take; lia).
  assert (inv (set_wr_off r1 (wr_off rb + r))) as Hinv'
    by (apply inv_write; [assumption | lia | assumption]).
  assert (Z.of_nat (length (take (Z.to_nat r) src)) <= u_rb_avail rb) as Hfit by lia.
  pose proof (contents_write rb (take (Z.to_nat r) src) r1 old Hinv Hfit Hs Hold) as Hc.
  rewrite Hl in Hc.
  destruct HF as (Hb & Hsz & _ & Hrd & Hfl).
  split; [exact Hk |]. split; [exact Hinv' |]. split; [exact Hc |].
  split; [rewrite (ready_eq _ Hinv'); simpl; lia |].
  simpl. auto.
Qed.

(** What a read that reports no error does to the buffered bytes and to
    the caller's block. *)
Lemma read_fifo rb dst n r rb' ob old :
  inv rb -> is_size n ->
  u_rb_read (Some rb) (Some dst) n = Ok (r, Some rb', ob) -> 0 <= r ->
  contents rb = Some old ->
  r = Z.min (u_rb_ready rb) n
  /\ inv rb'
  /\ ob = Some (take (Z.to_nat r) old ++ drop (Z.to_nat r) dst)
  /\ contents rb' = Some (drop (Z.to_nat r) old)
  /\ u_rb_ready rb' = u_rb_ready rb - r
  /\ file rb' = file rb /\ sz rb' = sz rb /\ base rb' = base rb.
Proof.
  intros Hinv Hn Hrd Hr0 Hold.
  pose proof (ready_eq rb Hinv) as Hr.
  destruct (read_inv rb (Some dst) n r (Some rb') ob Hinv Hn Hrd)
    as [(-> & _) | (dst' & l & [= <-] & Hle & Hk & Hlen & Hl & [= ->] & ->)]; [lia |].
  assert (0 <= r <= u_rb_ready rb) as Hk' by (unfold is_size in Hn; lia).
  pose proof (inv_advance_read rb r Hinv Hk') as Hinv'.
  rewrite (contents_front rb old r Hold Hk') in Hl. injection Hl as <-.
  split; [exact Hk |]. split; [exact Hinv' |]. split; [reflexivity |].
  split; [apply contents_read; assumption |].
  rewrite (ready_eq _ Hinv'). destruct Hinv. unfold advance_read.
  destruct (Z.leb_spec (sz rb) (rd_off rb + r)); simpl; repeat split; lia.
Qed.

(** X1: a write of [n <= Size(rb)] bytes on a reachable buffer accepts
    [k = min(Avail(rb), n)] bytes, the first [k] bytes of the block; they
    are appended to the buffered bytes, none of which is overwritten, and
    [Ready] grows and [Avail] shrinks by [k]. *)
Theorem X1_write_appends (rb : u_rb_t) (src old : list byte) (n : Z) :
  reachable rb -> 0 <= n <= u_rb_size rb -> n <= Z.of_nat (length src) ->
  contents rb = Some old ->
  exists rb',
    u_rb_write (Some rb) (Some src) n = Ok (Z.min (u_rb_avail rb) n, Some rb')
    /\ contents rb' = Some (old ++ take (Z.to_nat (Z.min (u_rb_avail rb) n)) src)
    /\ u_rb_ready rb' = u_rb_ready rb + Z.min (u_rb_avail rb) n
    /\ u_rb_avail rb' = u_rb_avail rb - Z.min (u_rb_avail rb) n.
Proof.
  intros Hreach Hn Hsrc Hold. pose proof (reachable_inv rb Hreach) as Hinv.
  pose proof Hinv as [? ? ? ? ?]. unfold u_rb_size in Hn.
  assert (is_size n) as Hsize by size_tac.
  destruct (write_returns rb (Some src) n Hinv Hsize) as (r & orb & Hw);
    [intros s [= <-]; exact Hsrc |].
  destruct (write_inv rb (Some src) n r orb Hinv Hsize Hw)
    as [(_ & _ & [E | E]) | (src' & r1 & _ & _ & Hk & _ & _ & ->)];
    [discriminate | lia |].
  pose proof (avail_eq rb Hinv) as Ha.
  destruct (write_fifo rb src n r _ old Hinv Hsize Hw ltac:(lia) Hold)
    as (_ & Hinv' & Hc & Hr' & Hrd & Hsz & _).
  rewrite <- Hk. eexists. split; [exact Hw |]. split; [exact Hc |].
  split; [exact Hr' |].
  rewrite (avail_eq _ Hinv'), Ha, <- (ready_eq _ Hinv'), Hr', (ready_eq rb Hinv), Hsz.
  lia.
Qed.

(** An instance of X1: a short write, 2 of 6 bytes fit behind the 6 bytes
    buffered in 8. *)
Lemma X1_write_appends_witness :
  reachable rb8_12 /\ 0 <= 6 <= u_rb_size rb8_12
  /\ 6 <= Z.of_nat (length abcdef) /\ contents rb8_12 = Some abcdef
  /\ exists rb',
    u_rb_write (Some rb8_12) (Some abcdef) 6 = Ok (Z.min (u_rb_avail rb8_12) 6, Some rb')
    /\ contents rb' = Some (abcdef ++ take (Z.to_nat (Z.min (u_rb_avail rb8_12) 6)) abcdef)
    /\ u_rb_ready rb' = u_rb_ready rb8_12 + Z.min (u_rb_avail rb8_12) 6
    /\ u_rb_avail rb' = u_rb_avail rb8_12 - Z.min (u_rb_avail rb8_12) 6.
Proof.
  assert (0 <= 6 <= u_rb_size rb8_12) as H1 by (unfold u_rb_size; simpl; lia).
  assert (6 <= Z.of_nat (length abcdef)) as H2 by (simpl; lia).
  assert (contents rb8_12 = Some abcdef) as H3 by (vm_compute; reflexivity).
  split; [exact rb8_12_reachable |]. split; [exact H1 |].
  split; [exact H2 |]. split; [exact H3 |].
  apply (X1_write_appends rb8_12 abcdef abcdef 6 rb8_12_reachable H1 H2 H3).
Defined.

(** X2: a read of [n <= Size(rb)] bytes on a reachable buffer returns
    [k = min(Ready(rb), n)]; the first [k] bytes of the block become the [k]
    oldest buffered bytes, the rest of the block is untouched, the other
    buffered bytes stay buffered in order, and the bytes of the file are not
    changed. *)
Theorem X2_read_takes_front (rb : u_rb_t) (dst old : list byte) (n : Z) :
  reachable rb -> 0 <= n <= u_rb_size rb -> n <= Z.of_nat (length dst) ->
  contents rb = Some old ->
  exists rb',
    u_rb_read (Some rb) (Some dst) n
    = Ok (Z.min (u_rb_ready rb) n, Some rb',
          Some (take (Z.to_nat (Z.min (u_rb_ready rb) n)) old
                ++ drop (Z.to_nat (Z.min (u_rb_ready rb) n)) dst))
    /\ contents rb' = Some (drop (Z.to_nat (Z.min (u_rb_ready rb) n)) old)
    /\ u_rb_ready rb' = u_rb_ready rb - Z.min (u_rb_ready rb) n
    /\ file rb' = file rb.
Proof.
  intros Hreach Hn Hdst Hold. pose proof (reachable_inv rb Hreach) as Hinv.
  pose proof Hinv as [? ? ? ? ?]. unfold u_rb_size in Hn.
  assert (is_size n) as Hsize by size_tac.
  destruct (read_returns rb (Some dst) n Hinv Hsize) as (r & orb & ob & Hrd);
    [intros s [= <-]; exact Hdst |].
  destruct (read_inv rb (Some dst) n r orb ob Hinv Hsize Hrd)
    as [(_ & _ & _ & [E | E]) | (dst' & l & _ & _ & Hk & _ & _ & -> & _)];
    [discriminate | lia |].
  pose proof (ready_eq rb Hinv) as Hr.
  destruct (read_fifo rb dst n r _ ob old Hinv Hsize Hrd ltac:(lia) Hold)
    as (_ & _ & -> & Hc & Hr' & Hf & _).
  rewrite <- Hk. eexists. split; [exact Hrd |]. auto.
Qed.

(** An instance of X2: four of the six buffered bytes are read across the
    end of the file. *)
Lemma X2_read_takes_front_witness :
  reachable rb8_12 /\ 0 <= 4 <= u_rb_size rb8_12
  /\ 4 <= Z.of_nat (length (replicate 5 x00)) /\ contents rb8_12 = Some abcdef
  /\ exists rb',
    u_rb_read (Some rb8_12) (Some (replicate 5 x00)) 4
    = Ok (Z.min (u_rb_ready rb8_12) 4, Some rb',
          Some (take (Z.to_nat (Z.min (u_rb_ready rb8_12) 4)) abcdef
                ++ drop (Z.to_nat (Z.min (u_rb_ready rb8_12) 4)) (replicate 5 x00)))
    /\ contents rb' = Some (drop (Z.to_nat (Z.min (u_rb_ready rb8_12) 4)) abcdef)
    /\ u_rb_ready rb' = u_rb_ready rb8_12 - Z.min (u_rb_ready rb8_12) 4
    /\ file rb' = file rb8_12.
Proof.
  assert (0 <= 4 <= u_rb_size rb8_12) as H1 by (unfold u_rb_size; simpl; lia).
  assert (4 <= Z.of_nat (length (replicate 5 x00))) as H2 by (simpl; lia).
  assert (contents rb8_12 = Some abcdef) as H3 by (vm_compute; reflexivity).
  split; [exact rb8_12_reachable |]. split; [exact H1 |].
  split; [exact H2 |]. split; [exact H3 |].
  apply (X2_read_takes_front rb8_12 (replicate 5 x00) abcdef 4 rb8_12_reachable H1 H2 H3).
Defined.

(** ** The stream of bytes through the buffer *)

Lemma stream_fifo ops : forall rb rb' ins outs old,
  inv rb -> Forall op_typed ops -> contents rb = Some old ->
  stream rb ops = Some (rb', ins, outs) ->
  exists rest, contents rb' = Some rest /\ old ++ ins = outs ++ rest.
Proof.
  induction ops as [| o ops IH]; intros rb rb' ins outs old Hinv Ht Hold Hs.
  - injection Hs as <- <- <-. exists old. split; [exact Hold |].
    rewrite app_nil_r. reflexivity.
  - apply Forall_cons in Ht. destruct Ht as (Ht & Hts).
    destruct o as [b n | b n |]; cbn [stream] in Hs; [| | discriminate].
    + destruct (u_rb_write (Some rb) b n) as [| [r [rb1 |]]] eqn:Ew;
        destruct b as [src |]; try discriminate.
      destruct (Z.ltb_spec r 0); [discriminate |].
      destruct (stream rb1 ops) as [[[rb2 i] o] |] eqn:Es; [| discriminate].
      injection Hs as <- <- <-.
      destruct (write_fifo rb src n r rb1 old Hinv Ht Ew ltac:(lia) Hold)
        as (_ & Hinv1 & Hc1 & _).
      destruct (IH rb1 rb2 i o _ Hinv1 Hts Hc1 Es) as (rest & Hrest & Heq).
      exists rest. split; [exact Hrest |]. rewrite app_assoc. exact Heq.
    + destruct (u_rb_read (Some rb) b n) as [| [[r [rb1 |]] [dst' |]]] eqn:Er;
        try discriminate.
      destruct b as [dst |]; [| discriminate].
      destruct (Z.ltb_spec r 0); [discriminate |].
      destruct (stream rb1 ops) as [[[rb2 i] o] |] eqn:Es; [| discriminate].
      injection Hs as <- <- <-.
      destruct (read_fifo rb dst n r rb1 _ old Hinv Ht Er ltac:(lia) Hold)
        as (Hk & Hinv1 & [= ->] & Hc1 & _).
      destruct (IH rb1 rb2 i o _ Hinv1 Hts Hc1 Es) as (rest & Hrest & Heq).
      exists rest. split; [exact Hrest |].
      pose proof (contents_length rb old Hold) as Hlen.
      rewrite take_app_length' by (rewrite length_take; lia).
      rewrite <- app_assoc, <- Heq, app_assoc, take_drop. reflexivity.
Qed.

(** X3: over any run of writes and reads that report no error, started in
    a reachable state, the bytes buffered at the start followed by the bytes
    the writes accepted are the bytes the reads delivered followed by the
    bytes buffered at the end: nothing is lost, duplicated or reordered,
    however often the offsets wrap.  Started on an empty buffer, what was
    read is a prefix of what was written. *)
Theorem X3_stream_integrity (rb rb' : u_rb_t) (ops : list op) (old ins outs : list byte) :
  reachable rb -> Forall op_typed ops -> contents rb = Some old ->
  stream rb ops = Some (rb', ins, outs) ->
  exists rest,
    contents rb' = Some rest
    /\ old ++ ins = outs ++ rest
    /\ (u_rb_ready rb = 0 -> ins = outs ++ rest).
Proof.
  intros Hreach Ht Hold Hs. pose proof (reachable_inv rb Hreach) as Hinv.
  destruct (stream_fifo ops rb rb' ins outs old Hinv Ht Hold Hs) as (rest & Hrest & Heq).
  exists rest. split; [exact Hrest |]. split; [exact Heq |].
  intros H0. pose proof (contents_length rb old Hold) as Hlen.
  destruct old as [| x old]; [exact Heq | simpl in Hlen; lia].
Qed.

(** An instance of X3: twelve bytes pass through a buffer of eight. *)
Lemma X3_stream_integrity_witness :
  reachable rb8
  /\ exists rest,
    contents (mk_rb 4096 8 4 4 (file rb8_12)) = Some rest
    /\ [] ++ (abcdef ++ abcdef) = (abcdef ++ abcdef) ++ rest
    /\ (u_rb_ready rb8 = 0 -> abcdef ++ abcdef = (abcdef ++ abcdef) ++ rest).
Proof.
  split; [exact rb8_reachable |].
  apply (X3_stream_integrity rb8 (mk_rb 4096 8 4 4 (file rb8_12))
           [OpWrite (Some abcdef) 6; OpRead (Some (replicate 4 x00)) 4;
            OpWrite (Some abcdef) 6; OpRead (Some (replicate 8 x00)) 8]).
  - exact rb8_reachable.
  - repeat apply Forall_cons_2; try apply Forall_nil_2; size_tac.
  - reflexivity.
  - vm_compute. reflexivity.
Defined.

(** ** Clearing, filling, draining *)

(** X4: [u_rb_clear] on a reachable buffer returns 0 and discards what was
    buffered without touching the bytes of the file: [Ready] is 0, [Avail]
    is [Size], and whatever the buffer held, a block [S] of at most [Size]
    bytes written next is accepted whole and read back exactly, leaving the
    buffer empty. *)
Theorem X4_clear_then_round_trip (rb : u_rb_t) (S dst : list byte) :
  reachable rb ->
  Z.of_nat (length S) <= u_rb_size rb -> (length S <= length dst)%nat ->
  exists rb0 rb1 rb2,
    u_rb_clear (Some rb) = (0, Some rb0)
    /\ u_rb_ready rb0 = 0 /\ u_rb_avail rb0 = u_rb_size rb /\ file rb0 = file rb
    /\ u_rb_write (Some rb0) (Some S) (Z.of_nat (length S))
       = Ok (Z.of_nat (length S), Some rb1)
    /\ u_rb_read (Some rb1) (Some dst) (Z.of_nat (length S))
       = Ok (Z.of_nat (length S), Some rb2, Some (S ++ drop (length S) dst))
    /\ u_rb_ready rb2 = 0.
Proof.
  intros Hreach HS Hdst. pose proof (reachable_inv rb Hreach) as Hinv.
  pose proof (inv_clear rb Hinv) as Hinv0.
  set (rb0 := set_rd_off (set_wr_off rb 0) 0) in *.
  set (n := Z.of_nat (length S)) in *. unfold u_rb_size in *.
  assert (u_rb_ready rb0 = 0) as Hr0 by (rewrite (ready_eq _ Hinv0); reflexivity).
  assert (u_rb_avail rb0 = sz rb) as Ha0 by (rewrite (avail_eq _ Hinv0); simpl; lia).
  pose proof Hinv as [? ? ? ? ?].
  assert (is_size n) as Hn by size_tac.
  destruct (write_returns rb0 (Some S) n Hinv0 Hn) as (r & orb & Hw);
    [intros blk [= <-]; lia |].
  destruct (write_inv rb0 (Some S) n r orb Hinv0 Hn Hw)
    as [(_ & _ & [E | E]) | (blk & r1 & _ & _ & Hk & _ & _ & ->)];
    [discriminate | simpl in E; lia |].
  assert (r = n) as -> by lia.
  destruct (write_fifo rb0 S n n _ [] Hinv0 Hn Hw ltac:(lia) (contents_nil rb0 Hr0))
    as (_ & Hinv1 & Hc1 & Hr1 & _ & Hsz1 & _).
  rewrite take_ge in Hc1 by lia. simpl in Hc1.
  match type of Hw with _ = Ok (_, Some ?x) => set (rb1 := x) in * end.
  assert (sz rb1 = sz rb) as Hsz by (rewrite Hsz1; reflexivity).
  destruct (read_returns rb1 (Some dst) n Hinv1 Hn) as (r & orb & ob & Hrd);
    [intros d0 [= <-]; lia |].
  destruct (read_inv rb1 (Some dst) n r orb ob Hinv1 Hn Hrd)
    as [(_ & _ & _ & [E | E]) | (d & l & _ & _ & Hk' & _ & _ & -> & _)];
    [discriminate | lia |].
  assert (r = n) as -> by lia.
  destruct (read_fifo rb1 dst n n _ ob S Hinv1 Hn Hrd ltac:(lia) Hc1)
    as (_ & _ & -> & _ & Hr2 & _).
  rewrite take_ge in Hrd by lia.
  replace (Z.to_nat n) with (length S) in Hrd by lia.
  exists rb0, rb1, (advance_read rb1 n).
  repeat split; try assumption; try reflexivity. lia.
Qed.

Lemma X4_clear_then_round_trip_witness :
  reachable rb8_12 /\ Z.of_nat (length abcdef) <= u_rb_size rb8_12
  /\ exists rb0 rb1 rb2,
    u_rb_clear (Some rb8_12) = (0, Some rb0)
    /\ u_rb_ready rb0 = 0 /\ u_rb_avail rb0 = u_rb_size rb8_12 /\ file rb0 = file rb8_12
    /\ u_rb_write (Some rb0) (Some abcdef) (Z.of_nat (length abcdef))
       = Ok (Z.of_nat (length abcdef), Some rb1)
    /\ u_rb_read (Some rb1) (Some (replicate 8 x00)) (Z.of_nat (length abcdef))
       = Ok (Z.of_nat (length abcdef), Some rb2,
             Some (abcdef ++ drop (length abcdef) (replicate 8 x00)))
    /\ u_rb_ready rb2 = 0.
Proof.
  assert (Z.of_nat (length abcdef) <= u_rb_size rb8_12) as H1
    by (unfold u_rb_size; simpl; lia).
  split; [exact rb8_12_reachable |]. split; [exact H1 |].
  apply (X4_clear_then_round_trip rb8_12 abcdef (replicate 8 x00) rb8_12_reachable H1).
  simpl. lia.
Defined.

(** X5: on a reachable buffer a write of [Size(rb)] bytes fills it: it
    returns [Avail(rb)] and leaves [Avail = 0]; and a read of [Size(rb)]
    bytes drains it: it returns [Ready(rb)], delivers all the buffered bytes
    in order and leaves [Ready = 0] and [Avail = Size(rb)]. *)
Theorem X5_fill_and_drain (rb : u_rb_t) (src dst old : list byte) :
  reachable rb ->
  u_rb_size rb <= Z.of_nat (length src) -> u_rb_size rb <= Z.of_nat (length dst) ->
  contents rb = Some old ->
  (exists rb',
     u_rb_write (Some rb) (Some src) (u_rb_size rb) = Ok (u_rb_avail rb, Some rb')
     /\ u_rb_avail rb' = 0 /\ u_rb_ready rb' = u_rb_size rb)
  /\ (exists rb',
     u_rb_read (Some rb) (Some dst) (u_rb_size rb)
     = Ok (u_rb_ready rb, Some rb', Some (old ++ drop (length old) dst))
     /\ u_rb_ready rb' = 0 /\ u_rb_avail rb' = u_rb_size rb
     /\ contents rb' = Some []).
Proof.
  intros Hreach Hsrc Hdst Hold. pose proof (reachable_inv rb Hreach) as Hinv.
  pose proof (ready_eq rb Hinv) as Hr. pose proof (avail_eq rb Hinv) as Ha.
  pose proof (contents_length rb old Hold) as Hlen.
  pose proof Hinv as [? ? ? ? ?]. unfold u_rb_size in *.
  assert (is_size (sz rb)) as Hn by size_tac.
  split.
  - destruct (write_returns rb (Some src) (sz rb) Hinv Hn) as (r & orb & Hw);
      [intros blk [= <-]; lia |].
    destruct (write_inv rb (Some src) (sz rb) r orb Hinv Hn Hw)
      as [(_ & _ & [E | E]) | (blk & r1 & _ & _ & Hk & _ & _ & ->)];
      [discriminate | lia |].
    destruct (write_fifo rb src (sz rb) r _ old Hinv Hn Hw ltac:(lia) Hold)
      as (_ & Hinv' & _ & Hr' & _ & Hsz & _).
    assert (r = u_rb_avail rb) as Er by lia. rewrite <- Er.
    eexists. split; [exact Hw |].
    rewrite (avail_eq _ Hinv'), <- (ready_eq _ Hinv'), Hr', Hsz. lia.
  - destruct (read_returns rb (Some dst) (sz rb) Hinv Hn) as (r & orb & ob & Hrd);
      [intros blk [= <-]; lia |].
    destruct (read_inv rb (Some dst) (sz rb) r orb ob Hinv Hn Hrd)
      as [(_ & _ & _ & [E | E]) | (blk & l & _ & _ & Hk & _ & _ & -> & _)];
      [discriminate | lia |].
    destruct (read_fifo rb dst (sz rb) r _ ob old Hinv Hn Hrd ltac:(lia) Hold)
      as (_ & Hinv' & -> & Hc & Hr' & _ & Hsz & _).
    assert (r = u_rb_ready rb) as Er by lia. rewrite <- Er.
    replace (Z.to_nat r) with (length old) in * by lia.
    rewrite take_ge in Hrd by lia. rewrite drop_all in Hc.
    eexists. split; [exact Hrd |]. split; [lia |]. split; [| exact Hc].
    rewrite (avail_eq _ Hinv'), <- (ready_eq _ Hinv'), Hr', Hsz. lia.
Qed.

Lemma X5_fill_and_drain_witness :
  reachable rb8_12 /\ contents rb8_12 = Some abcdef
  /\ (exists rb',
     u_rb_write (Some rb8_12) (Some (replicate 8 x61)) (u_rb_size rb8_12)
     = Ok (u_rb_avail rb8_12, Some rb')
     /\ u_rb_avail rb' = 0 /\ u_rb_ready rb' = u_rb_size rb8_12)
  /\ (exists rb',
     u_rb_read (Some rb8_12) (Some (replicate 8 x00)) (u_rb_size rb8_12)
     = Ok (u_rb_ready rb8_12, Some rb',
           Some (abcdef ++ drop (length abcdef) (replicate 8 x00)))
     /\ u_rb_ready rb' = 0 /\ u_rb_avail rb' = u_rb_size rb8_12
     /\ contents rb' = Some []).
Proof.
  assert (contents rb8_12 = Some abcdef) as H3 by (vm_compute; reflexivity).
  split; [exact rb8_12_reachable |]. split; [exact H3 |].
  apply (X5_fill_and_drain rb8_12 (replicate 8 x61) (replicate 8 x00) abcdef
           rb8_12_reachable).
  - unfold u_rb_size. simpl. lia.
  - unfold u_rb_size. simpl. lia.
  - exact H3.
Defined.

(** ** What a return value of 0 means *)

(** X6: with a block that is not NULL and [n <= Size(rb)], [u_rb_write] on
    a reachable buffer returns 0 exactly when the buffer is full or [n = 0],
    and [u_rb_read] returns 0 exactly when the buffer is empty or [n = 0];
    any other return value is positive. *)
Theorem X6_zero_return (rb : u_rb_t) (blk : list byte) (n : Z) :
  reachable rb -> 0 <= n <= u_rb_size rb ->
  (forall r orb, u_rb_write (Some rb) (Some blk) n = Ok (r, orb) ->
     (r = 0 <-> u_rb_avail rb = 0 \/ n = 0) /\ 0 <= r)
  /\ (forall r orb ob, u_rb_read (Some rb) (Some blk) n = Ok (r, orb, ob) ->
     (r = 0 <-> u_rb_ready rb = 0 \/ n = 0) /\ 0 <= r).
Proof.
  intros Hreach Hn. pose proof (reachable_inv rb Hreach) as Hinv.
  pose proof (ready_eq rb Hinv) as Hr. pose proof (avail_eq rb Hinv) as Ha.
  pose proof Hinv as [? ? ? ? ?]. unfold u_rb_size in Hn.
  assert (is_size n) as Hsize by size_tac.
  split.
  - intros r orb Hw.
    destruct (write_inv rb (Some blk) n r orb Hinv Hsize Hw)
      as [(_ & _ & [E | E]) | (b & r1 & _ & _ & Hk & _)];
      [discriminate | lia | lia].
  - intros r orb ob Hrd.
    destruct (read_inv rb (Some blk) n r orb ob Hinv Hsize Hrd)
      as [(_ & _ & _ & [E | E]) | (b & l & _ & _ & Hk & _)];
      [discriminate | lia | lia].
Qed.

Lemma X6_zero_return_witness :
  reachable rb4k_full /\ 0 <= 1 <= u_rb_size rb4k_full
  /\ forall r orb, u_rb_write (Some rb4k_full) (Some [x62]) 1 = Ok (r, orb) ->
     (r = 0 <-> u_rb_avail rb4k_full = 0 \/ 1 = 0) /\ 0 <= r.
Proof.
  assert (0 <= 1 <= u_rb_size rb4k_full) as H1 by (unfold u_rb_size; simpl; lia).
  split; [exact rb4k_full_reachable |]. split; [exact H1 |].
  apply (X6_zero_return rb4k_full [x62] 1 rb4k_full_reachable H1).
Defined.

(** ** What the calls leave alone *)

(** X7: no call changes the size, the base address or the length of the
    file of a reachable buffer; [u_rb_write] does not move the read offset;
    [u_rb_read] and [u_rb_clear] do not change a byte of the file. *)
Theorem X7_frame (rb rb' : u_rb_t) (o : op) (r : Z) :
  reachable rb -> op_typed o -> call rb o = Ok (r, Some rb') ->
  u_rb_size rb' = u_rb_size rb /\ base rb' = base rb
  /\ length (file rb') = length (file rb)
  /\ match o with
     | OpWrite _ _ => rd_off rb' = rd_off rb
     | OpRead _ _ => file rb' = file rb
     | OpClear => file rb' = file rb
     end.
Proof.
  intros Hreach Ht Hc. pose proof (reachable_inv rb Hreach) as Hinv.
  unfold u_rb_size. destruct o as [b n | b n |]; simpl in Hc.
  - destruct (write_inv rb b n r (Some rb') Hinv Ht Hc)
      as [(_ & [= <-] & _) | (src & r1 & _ & _ & _ & _ & Hs & [= ->])]; [auto |].
    apply store_bytes_frame in Hs. destruct Hs as (Hb & Hsz & _ & Hrd & Hl).
    simpl. auto.
  - destruct (u_rb_read (Some rb) b n) as [| [[r0 orb] ob]] eqn:E; [discriminate |].
    injection Hc as -> ->.
    destruct (read_inv rb b n r (Some rb') ob Hinv Ht E)
      as [(_ & [= <-] & _) | (dst & l & _ & _ & _ & _ & _ & [= ->] & _)]; [auto |].
    unfold advance_read. destruct (sz rb <=? rd_off rb + r); simpl; auto.
  - injection Hc as _ <-. simpl. auto.
Qed.

Lemma X7_frame_witness :
  reachable rb8_6 /\ op_typed (OpWrite (Some abcdef) 6)
  /\ u_rb_size rb8_12 = u_rb_size rb8_6 /\ base rb8_12 = base rb8_6
  /\ length (file rb8_12) = length (file rb8_6)
  /\ rd_off rb8_12 = rd_off rb8_6.
Proof.
  assert (op_typed (OpWrite (Some abcdef) 6)) as Ht by size_tac.
  split; [exact rb8_6_reachable |]. split; [exact Ht |].
  apply (X7_frame rb8_6 rb8_12 (OpWrite (Some abcdef) 6) 6 rb8_6_reachable Ht).
  vm_compute. reflexivity.
Defined.

(** ** Creation *)

(** X8: on a platform whose page size divides [2^64], every buffer
    [u_rb_create] returns, for any hint [h], has a size that is a positive
    multiple of the page size, [>= h] and the least such multiple (hints for
    which the rounding wraps around never yield a buffer); the buffer is
    empty, [Ready = 0] and [Avail = Size], and its file reads as zeroes. *)
Theorem X8_create_capacity (os : os_t) (h : Z) (rb : u_rb_t) :
  0 < sc_page_size os -> is_size (sc_page_size os) -> (sc_page_size os | SIZE_MOD) ->
  is_size h ->
  u_rb_create os h = Some rb ->
  0 < u_rb_size rb
  /\ (sc_page_size os | u_rb_size rb)
  /\ h <= u_rb_size rb
  /\ (forall m, 0 < m -> (sc_page_size os | m) -> h <= m -> u_rb_size rb <= m)
  /\ u_rb_ready rb = 0 /\ u_rb_avail rb = u_rb_size rb
  /\ contents rb = Some []
  /\ file rb = replicate (Z.to_nat (u_rb_size rb)) x00.
Proof.
  intros Hpg Hpgs Hdiv Hh Hc.
  destruct (inv_create os h rb Hpgs Hc) as (Hinv & Hw & Hr & _ & Hsz).
  pose proof (ready_eq rb Hinv) as Hready. pose proof (avail_eq rb Hinv) as Havail.
  assert (file rb = replicate (Z.to_nat (u_rb_size rb)) x00) as Hfile.
  { apply create_Some in Hc. destruct Hc as (-> & _). reflexivity. }
  pose proof Hinv as [Hpos _ _ _ _]. unfold u_rb_size in *.
  set (pg := sc_page_size os) in *.
  assert (u_rb_ready rb = 0) as Hr0 by lia.
  assert (0 < sz rb /\ (pg | sz rb) /\ h <= sz rb
          /\ forall m, 0 < m -> (pg | m) -> h <= m -> sz rb <= m) as Hcap.
  { rewrite Hsz. destruct (Z.eq_dec h 0) as [-> | Hne].
    - change (round_sz pg 0) with pg. repeat split; try lia.
      + apply Z.divide_refl.
      + intros m Hm [t ->] _. destruct (Z.le_gt_cases t 0); nia.
    - destruct (round_sz_pow2 pg h Hpg Hdiv Hh Hne) as [E | E]; [| lia].
      pose proof (Z.div_mod (h - 1) pg ltac:(lia)) as Hdm.
      pose proof (Z.mod_pos_bound (h - 1) pg Hpg) as Hmod.
      rewrite E. set (q := (h - 1) / pg) in *. repeat split; try nia.
      + apply Z.divide_factor_r.
      + intros m Hm [t ->] Hle. assert (q + 1 <= t) by nia. nia. }
  destruct Hcap as (H1 & H2 & H3 & H4).
  repeat split; try assumption; try lia.
  apply contents_nil, Hr0.
Qed.

(** An instance of X8: with pages of 8 bytes a hint of 9 bytes gives two
    pages. *)
Lemma X8_create_capacity_witness :
  0 < sc_page_size os8 /\ is_size (sc_page_size os8)
  /\ (sc_page_size os8 | SIZE_MOD) /\ is_size 9
  /\ 9 <= u_rb_size (mk_rb 4096 16 0 0 (replicate 16 x00))
  /\ (sc_page_size os8 | u_rb_size (mk_rb 4096 16 0 0 (replicate 16 x00))).
Proof.
  assert (0 < sc_page_size os8) as H1 by (simpl; lia).
  assert (is_size (sc_page_size os8)) as H2 by (simpl; size_tac).
  assert (sc_page_size os8 | SIZE_MOD) as H3 by (exists (2 ^ 61); reflexivity).
  assert (is_size 9) as H4 by size_tac.
  assert (u_rb_create os8 9 = Some (mk_rb 4096 16 0 0 (replicate 16 x00))) as H5
    by reflexivity.
  pose proof (X8_create_capacity os8 9 _ H1 H2 H3 H4 H5) as (_ & Hd & Hle & _).
  repeat split; try assumption; apply H2.
Defined.

(** X9: where the rounding does not wrap around (some multiple of the
    page size [>= h] is a [size_t]), [round_sz] keeps a positive multiple of
    the page size as it is, so rounding twice is rounding once; it adds less
    than one page to a positive hint; and it is monotone. *)
Theorem X9_round_sz_stable (pg h : Z) :
  0 < pg -> is_size pg -> is_size h ->
  (exists m, (pg | m) /\ h <= m /\ is_size m) ->
  (0 < h -> (pg | h) -> round_sz pg h = h)
  /\ round_sz pg (round_sz pg h) = round_sz pg h
  /\ (0 < h -> round_sz pg h < h + pg)
  /\ (forall h', 0 <= h' <= h -> round_sz pg h' <= round_sz pg h).
Proof.
  intros Hpg Hpgs Hh (m0 & Hdiv0 & Hle0 & Hm0).
  assert (forall x, 0 < x -> x <= m0 ->
            round_sz pg x = ((x - 1) / pg + 1) * pg
            /\ x <= round_sz pg x < x + pg /\ round_sz pg x <= m0) as Hex.
  { intros x Hx Hxm.
    destruct (round_sz_exact pg x m0 Hpg Hx Hdiv0 Hxm ltac:(size_tac)) as (E & Hb).
    pose proof (Z.div_mod (x - 1) pg ltac:(lia)) as Hdm.
    pose proof (Z.mod_pos_bound (x - 1) pg Hpg) as Hmod.
    rewrite E. split; [reflexivity |]. nia. }
  assert (forall x, 0 < x -> x < SIZE_MOD -> (pg | x) -> round_sz pg x = x) as Hfix.
  { intros x Hx Hxm Hd.
    destruct (round_sz_exact pg x x Hpg Hx Hd ltac:(lia) Hxm) as (E & _).
    destruct Hd as [t ->]. rewrite E. assert (0 < t) by nia.
    replace (t * pg - 1) with ((t - 1) * pg + (pg - 1)) by lia.
    rewrite Z.div_add_l by lia. rewrite Z.div_small by lia. lia. }
  unfold is_size in *.
  split; [intros H0 Hd; apply Hfix; [lia | lia | exact Hd] |].
  split.
  - destruct (Z.eq_dec h 0) as [-> | Hne].
    + change (round_sz pg 0) with pg.
      apply Hfix; [lia | lia | apply Z.divide_refl].
    + destruct (Hex h ltac:(lia) Hle0) as (E & Hb & Hm).
      apply Hfix; [lia | lia |]. rewrite E. apply Z.divide_factor_r.
  - split; [intros H0; apply (Hex h H0 Hle0) |].
    intros h' Hh'. destruct (Z.eq_dec h' 0) as [-> | Hne'].
    + change (round_sz pg 0) with pg. destruct (Z.eq_dec h 0) as [-> | Hne].
      * change (round_sz pg 0) with pg. lia.
      * destruct (Hex h ltac:(lia) Hle0) as (E & _).
        pose proof (Z.div_pos (h - 1) pg ltac:(lia) Hpg). rewrite E. nia.
    + destruct (Hex h' ltac:(lia) ltac:(lia)) as (E' & _).
      destruct (Hex h ltac:(lia) Hle0) as (E & _). rewrite E, E'.
      pose proof (Z.div_le_mono (h' - 1) (h - 1) pg Hpg ltac:(lia)). nia.
Qed.

Lemma X9_round_sz_stable_witness :
  0 < 4096 /\ is_size 4096 /\ is_size 8192
  /\ (exists m, (4096 | m) /\ 8192 <= m /\ is_size m)
  /\ (0 < 8192 -> (4096 | 8192) -> round_sz 4096 8192 = 8192)
  /\ round_sz 4096 (round_sz 4096 8192) = round_sz 4096 8192
  /\ (0 < 8192 -> round_sz 4096 8192 < 8192 + 4096)
  /\ (forall h', 0 <= h' <= 8192 -> round_sz 4096 h' <= round_sz 4096 8192).
Proof.
  assert (is_size 4096) as H1 by size_tac.
  assert (is_size 8192) as H2 by size_tac.
  assert (exists m, (4096 | m) /\ 8192 <= m /\ is_size m) as H3
    by (exists 8192; split; [exists 2; reflexivity | split; [lia | exact H2]]).
  split; [lia |]. split; [exact H1 |]. split; [exact H2 |]. split; [exact H3 |].
  apply (X9_round_sz_stable 4096 8192); [lia | exact H1 | exact H2 | exact H3].
Defined.

(** ** Disposal *)

(** The length [u_rb_free] passes to [munmap] is that of the whole doubled
    range: on a reachable buffer the shift does not wrap around. *)
Lemma free_unmaps_doubled_range rb :
  reachable rb -> wrap (Z.shiftl (sz rb) 1) = 2 * sz rb.
Proof.
  intros Hreach. pose proof (reachable_inv rb Hreach) as [? ? ? ? ?].
  rewrite Z.shiftl_mul_pow2 by lia. change (2 ^ 1) with 2.
  rewrite wrap_id by size_tac. lia.
Qed.

(** ** The queries *)

(** X11: in every reachable state the two unsigned subtractions of the
    queries do not wrap around: [Ready] and [Avail] lie between 0 and
    [Size]; [Ready] is 0 exactly when the two offsets are equal, and
    [Avail] is 0 exactly when [Ready] is [Size]. *)
Theorem X11_query_bounds (rb : u_rb_t) :
  reachable rb ->
  0 <= u_rb_ready rb <= u_rb_size rb
  /\ 0 <= u_rb_avail rb <= u_rb_size rb
  /\ u_rb_ready rb = wr_off rb - rd_off rb
  /\ u_rb_avail rb = u_rb_size rb - u_rb_ready rb
  /\ (u_rb_ready rb = 0 <-> rd_off rb = wr_off rb)
  /\ (u_rb_avail rb = 0 <-> u_rb_ready rb = u_rb_size rb).
Proof.
  intros Hreach. pose proof (reachable_inv rb Hreach) as Hinv.
  rewrite (avail_eq rb Hinv), (ready_eq rb Hinv). destruct Hinv.
  unfold u_rb_size. repeat split; lia.
Qed.

Lemma X11_query_bounds_witness :
  reachable rb8_12
  /\ 0 <= u_rb_ready rb8_12 <= u_rb_size rb8_12
  /\ 0 <= u_rb_avail rb8_12 <= u_rb_size rb8_12
  /\ u_rb_ready rb8_12 = wr_off rb8_12 - rd_off rb8_12
  /\ u_rb_avail rb8_12 = u_rb_size rb8_12 - u_rb_ready rb8_12
  /\ (u_rb_ready rb8_12 = 0 <-> rd_off rb8_12 = wr_off rb8_12)
  /\ (u_rb_avail rb8_12 = 0 <-> u_rb_ready rb8_12 = u_rb_size rb8_12).
Proof.
  split; [exact rb8_12_reachable |].
  apply (X11_query_bounds rb8_12 rb8_12_reachable).
Defined.
